(** * soup: selector resolution over a parsed HTML tree

    A shallow embedding of [main.go] of the [soup] package: the free
    functions [SelectAll], [SelectFirst], the three traversal families
    ([firstWithId], [firstWithClassName], [allWithClassName],
    [firstWithTag], [allWithTag]) and the leaf utilities [Attr],
    [HasClass] and [TextContent].

    Two views of an [*html.Node] are given.  The first is a finite rose
    tree in which a node reference is the path of child indices leading
    to it; the functional properties are stated on it.  The second keeps
    the [FirstChild]/[NextSibling] pointers in a node store and runs the
    loops of the source with fuel; it is used for termination and is
    related to the first view by a refinement lemma. *)

From Stdlib Require Import Ascii String.
From stdpp Require Import base option list sorting gmap.

Local Open Scope string_scope.
Local Open Scope list_scope.

(** ** The parts of Go's [strings] package used by the source *)

Module strings.

(** [strings.Split(s, sep)] for a separator of one byte, the only use
    in the source ([strings.Split(a.Val, " ")]): the substrings between
    the occurrences of [sep]; a string without [sep] (the empty string
    too) gives the one-element slice holding it. *)
Fixpoint Split (s : string) (sep : ascii) : list string :=
  match s with
  | EmptyString => [EmptyString]
  | String c s' =>
      if Ascii.eqb c sep then EmptyString :: Split s' sep
      else match Split s' sep with
           | [] => [String c EmptyString]
           | tok :: toks => String c tok :: toks
           end
  end.

(** [strings.Join(elems, sep)], the inverse of [Split]; used in the
    statements only. *)
Fixpoint Join (elems : list string) (sep : ascii) : string :=
  match elems with
  | [] => EmptyString
  | [tok] => tok
  | tok :: rest => (tok ++ String sep (Join rest sep))%string
  end.

(** Membership of a byte in a cutset. *)
Fixpoint inCutset (c : ascii) (cutset : string) : bool :=
  match cutset with
  | EmptyString => false
  | String d cutset' => Ascii.eqb c d || inCutset c cutset'
  end.

Fixpoint TrimLeft (s cutset : string) : string :=
  match s with
  | EmptyString => EmptyString
  | String c s' => if inCutset c cutset then TrimLeft s' cutset else s
  end.

Fixpoint TrimRight (s cutset : string) : string :=
  match s with
  | EmptyString => EmptyString
  | String c s' =>
      match TrimRight s' cutset with
      | EmptyString => if inCutset c cutset then EmptyString
                       else String c EmptyString
      | rest => String c rest
      end
  end.

(** [strings.Trim(s, cutset)] for an ASCII cutset: Go trims the right
    end, then the left end, byte by byte. *)
Definition Trim (s cutset : string) : string :=
  TrimLeft (TrimRight s cutset) cutset.

End strings.

(** ** The part of [golang.org/x/net/html] used by the source *)

Module html.

Inductive NodeType : Set :=
| ErrorNode | TextNode | DocumentNode | ElementNode
| CommentNode | DoctypeNode | RawNode.

Definition NodeType_eqb (a b : NodeType) : bool :=
  match a, b with
  | ErrorNode, ErrorNode | TextNode, TextNode
  | DocumentNode, DocumentNode | ElementNode, ElementNode
  | CommentNode, CommentNode | DoctypeNode, DoctypeNode
  | RawNode, RawNode => true
  | _, _ => false
  end.

Record Attribute : Set := mkAttribute {
  Namespace : string;
  Key : string;
  Val : string
}.

(** A node with its children in document order: the chain
    [FirstChild], [NextSibling], ... of the Go struct read as a list.
    [Type] is a keyword, hence [Type_]. *)
#[local] Unset Elimination Schemes.
Inductive Node : Set := mkNode {
  Type_ : NodeType;
  Data : string;
  Attr : list Attribute;
  Children : list Node
}.
#[local] Set Elimination Schemes.

(** Induction over a node with the hypothesis for every child. *)
Section NodeInd.
Variable P : Node -> Prop.
Hypothesis step :
  forall ty data attrs cs, Forall P cs -> P (mkNode ty data attrs cs).

Fixpoint Node_ind (n : Node) : P n :=
  match n with
  | mkNode ty data attrs cs =>
      step ty data attrs cs
        ((fix all (l : list Node) : Forall P l :=
            match l with
            | [] => List.Forall_nil P
            | c :: l' => @List.Forall_cons _ P c l' (Node_ind c) (all l')
            end) cs)
  end.
End NodeInd.

End html.

Import html(NodeType(..), mkAttribute, mkNode).

(** A reference to a node of the tree below the queried node: the child
    indices to follow from the queried node; [[]] is that node itself.
    Go's [nil] pointer is [None] of [option ref]. *)
Definition ref : Set := list nat.

(** The node a reference points to. *)
Fixpoint deref (node : html.Node) (r : ref) : option html.Node :=
  match r with
  | [] => Some node
  | i :: r' =>
      match html.Children node !! i with
      | Some c => deref c r'
      | None => None
      end
  end.

(** ** Selector *)

Record Selector : Set := mkSelector {
  Id : string;
  ClassName : string;
  Tag : string;
  Recursive : bool
}.

(** Go's [len(s)] on a string. *)
Definition len (s : string) : nat := String.length s.

(** ** Attribute, class and text utilities *)

(** [Attr]: the loop over [node.Attr]. *)
Fixpoint attrLoop (attrs : list html.Attribute) (attr : string) : string :=
  match attrs with
  | [] => ""
  | a :: attrs' =>
      if String.eqb (html.Key a) attr then html.Val a
      else attrLoop attrs' attr
  end.

Definition Attr (node : html.Node) (attr : string) : string :=
  attrLoop (html.Attr node) attr.

(** The inner loop of [HasClass] over the tokens of the class value. *)
Fixpoint classLoop (classes : list string) (className : string) : bool :=
  match classes with
  | [] => false
  | class :: classes' =>
      if String.eqb class className then true
      else classLoop classes' className
  end.

(** The outer loop of [HasClass]: it returns at the first attribute
    whose key is [class]. *)
Fixpoint hasClassLoop (attrs : list html.Attribute) (className : string)
  : bool :=
  match attrs with
  | [] => false
  | a :: attrs' =>
      if String.eqb (html.Key a) "class"
      then classLoop (strings.Split (html.Val a) " ") className
      else hasClassLoop attrs' className
  end.

Definition HasClass (node : html.Node) (className : string) : bool :=
  hasClassLoop (html.Attr node) className.

(** The two cutsets of [TextContent], written [" \t\n\r"] and
    [" \t\n\n"] in the source. *)
Definition cutsetSelf : string :=
  String " " (String "009" (String "010" (String "013" EmptyString))).
Definition cutsetChild : string :=
  String " " (String "009" (String "010" (String "010" EmptyString))).

Definition isText (c : html.Node) : bool :=
  html.NodeType_eqb (html.Type_ c) TextNode.

Definition isElement (c : html.Node) : bool :=
  html.NodeType_eqb (html.Type_ c) ElementNode.

(** The loop of [TextContent] over the children. *)
Fixpoint textLoop (cs : list html.Node) : string :=
  match cs with
  | [] => ""
  | c :: cs' =>
      if isText c then strings.Trim (html.Data c) cutsetChild
      else textLoop cs'
  end.

Definition TextContent (node : html.Node) : string :=
  if isText node then strings.Trim (html.Data node) cutsetSelf
  else textLoop (html.Children node).

(** ** Loops over the children

    [i] is the index of the head of [cs] among the children of the
    node whose chain is walked. *)

Section ChildLoops.

(** [for c := ...: if test(c) { return c }]. *)
Fixpoint scan (test : html.Node -> bool) (cs : list html.Node) (i : nat)
  : option nat :=
  match cs with
  | [] => None
  | c :: cs' => if test c then Some i else scan test cs' (S i)
  end.

(** [for c := ...: if el := f(c); el != nil { return el }]. *)
Fixpoint descend (f : html.Node -> option ref) (cs : list html.Node)
  (i : nat) : option ref :=
  match cs with
  | [] => None
  | c :: cs' =>
      match f c with
      | Some el => Some (i :: el)
      | None => descend f cs' (S i)
      end
  end.

(** [for c := ...: res = append(res, f(c)...)]; [f] gives references
    relative to the node walked, head child included. *)
Fixpoint collect (f : nat -> html.Node -> list ref) (cs : list html.Node)
  (i : nat) : list ref :=
  match cs with
  | [] => []
  | c :: cs' => f i c ++ collect f cs' (S i)
  end.

End ChildLoops.

(** ** By-id traversal *)

Definition idMatch (id : string) (c : html.Node) : bool :=
  isElement c && String.eqb (Attr c "id") id.

Fixpoint firstWithId (node : html.Node) (id : string) (recursive : bool)
  : option ref :=
  match scan (idMatch id) (html.Children node) 0 with
  | Some i => Some [i]
  | None =>
      if negb recursive then None
      else descend
             (fun c => if isElement c then firstWithId c id true else None)
             (html.Children node) 0
  end.

Definition FirstWithId (node : html.Node) (id : string) : option ref :=
  firstWithId node id false.

Definition FirstWithIdR (node : html.Node) (id : string) : option ref :=
  firstWithId node id true.

(** ** By-class traversal *)

Fixpoint firstWithClassName (node : html.Node) (className : string)
  (recursive : bool) : option ref :=
  match scan (fun c => HasClass c className) (html.Children node) 0 with
  | Some i => Some [i]
  | None =>
      if negb recursive then None
      else descend (fun c => firstWithClassName c className true)
             (html.Children node) 0
  end.

Definition FirstWithClassName (node : html.Node) (className : string)
  : option ref := firstWithClassName node className false.

Definition FirstWithClassNameR (node : html.Node) (className : string)
  : option ref := firstWithClassName node className true.

Fixpoint allWithClassName (node : html.Node) (className : string)
  (recursive : bool) : list ref :=
  let res := if HasClass node className then [[]] else [] in
  if negb recursive then res
  else res ++ collect
                (fun i c => map (cons i) (allWithClassName c className true))
                (html.Children node) 0.

Definition AllWithClassName (node : html.Node) (className : string)
  : list ref := allWithClassName node className false.

Definition AllWithClassNameR (node : html.Node) (className : string)
  : list ref := allWithClassName node className true.

(** ** By-tag traversal *)

Definition tagMatch (tagName : string) (c : html.Node) : bool :=
  isElement c && String.eqb (html.Data c) tagName.

Fixpoint firstWithTag (node : html.Node) (tagName : string)
  (recursive : bool) : option ref :=
  match scan (tagMatch tagName) (html.Children node) 0 with
  | Some i => Some [i]
  | None =>
      if negb recursive then None
      else descend (fun c => firstWithTag c tagName true)
             (html.Children node) 0
  end.

Definition FirstWithTag (node : html.Node) (tagName : string) : option ref :=
  firstWithTag node tagName false.

Definition FirstWithTagR (node : html.Node) (tagName : string) : option ref :=
  firstWithTag node tagName true.

Fixpoint allWithTag (node : html.Node) (tagName : string) (recursive : bool)
  : list ref :=
  collect
    (fun i c =>
       (if tagMatch tagName c then [[i]] else [])
       ++ (if recursive then map (cons i) (allWithTag c tagName true)
           else []))
    (html.Children node) 0.

Definition AllWithTag (node : html.Node) (tagName : string) : list ref :=
  allWithTag node tagName false.

Definition AllWithTagR (node : html.Node) (tagName : string) : list ref :=
  allWithTag node tagName true.

(** ** Criterion dispatch

    A Go slice result is [None] for the [nil] slice and [Some l] for a
    slice that is not [nil]; its elements are pointers, [None] for
    [nil]. *)

Definition SelectAll (node : html.Node) (selector : Selector)
  : option (list (option ref)) :=
  if (0 <? len (Id selector))%nat then
    let node' := firstWithId node (Id selector) (Recursive selector) in
    match node' with
    | None => Some [node']
    | Some _ => Some []
    end
  else if (0 <? len (ClassName selector))%nat then
    Some (map Some
            (allWithClassName node (ClassName selector) (Recursive selector)))
  else if (0 <? len (Tag selector))%nat then
    Some (map Some (allWithTag node (Tag selector) (Recursive selector)))
  else None.

Definition SelectFirst (node : html.Node) (selector : Selector)
  : option ref :=
  if (0 <? len (Id selector))%nat then
    firstWithId node (Id selector) (Recursive selector)
  else if (0 <? len (ClassName selector))%nat then
    firstWithClassName node (ClassName selector) (Recursive selector)
  else if (0 <? len (Tag selector))%nat then
    firstWithTag node (Tag selector) (Recursive selector)
  else None.

(** ** The pointer view: nodes in a store, loops with fuel

    The Go struct keeps its children as a chain of pointers,
    [node.FirstChild], then [.NextSibling] until [nil].  Here a store
    maps addresses to cells holding those two pointers; a loop or a call
    that runs out of fuel gives [OutOfFuel], a load through [nil] (or
    through an address the store does not hold) gives [Panic]. *)

Module Ptr.

Definition ptr : Set := nat.

(** The fields of [html.Node] the source reads. *)
Record cell : Set := mkCell {
  Type_ : NodeType;
  Data : string;
  Attr : list html.Attribute;
  FirstChild : option ptr;
  NextSibling : option ptr
}.

Inductive outcome (A : Type) : Type :=
| Done (a : A)
| Panic
| OutOfFuel.
Arguments Done {A} a.
Arguments Panic {A}.
Arguments OutOfFuel {A}.

#[global] Instance outcome_ret : MRet outcome := @Done.
#[global] Instance outcome_bind : MBind outcome := fun A B f m =>
  match m with
  | Done a => f a
  | Panic => Panic
  | OutOfFuel => OutOfFuel
  end.

Section WithStore.

Variable h : gmap ptr cell.

(** [*p]. *)
Definition load (p : option ptr) : outcome cell :=
  match p with
  | None => Panic
  | Some a => match h !! a with
              | Some n => Done n
              | None => Panic
              end
  end.

Definition isElement (n : cell) : bool :=
  html.NodeType_eqb (Type_ n) ElementNode.

Definition idMatch (id : string) (n : cell) : bool :=
  isElement n && String.eqb (attrLoop (Attr n) "id") id.

Definition tagMatch (tagName : string) (n : cell) : bool :=
  isElement n && String.eqb (Data n) tagName.

Definition hasClass (className : string) (n : cell) : bool :=
  hasClassLoop (Attr n) className.

(** [for c := ...; c != nil; c = c.NextSibling { if test(c) { return c } }] *)
Fixpoint scan (fuel : nat) (test : cell -> bool) (c : option ptr)
  : outcome (option ptr) :=
  match c with
  | None => Done None
  | Some a =>
      match fuel with
      | O => OutOfFuel
      | S fuel' =>
          n ← load c;
          if test n then Done (Some a)
          else scan fuel' test (NextSibling n)
      end
  end.

(** [for c := ... { if el := f(c); el != nil { return el } }] *)
Fixpoint descend (fuel : nat) (f : ptr -> cell -> outcome (option ptr))
  (c : option ptr) : outcome (option ptr) :=
  match c with
  | None => Done None
  | Some a =>
      match fuel with
      | O => OutOfFuel
      | S fuel' =>
          n ← load c;
          el ← f a n;
          match el with
          | Some _ => Done el
          | None => descend fuel' f (NextSibling n)
          end
      end
  end.

(** [for c := ... { res = append(res, f(c)...) }] *)
Fixpoint collect (fuel : nat) (f : ptr -> cell -> outcome (list ptr))
  (c : option ptr) : outcome (list ptr) :=
  match c with
  | None => Done []
  | Some a =>
      match fuel with
      | O => OutOfFuel
      | S fuel' =>
          n ← load c;
          found ← f a n;
          rest ← collect fuel' f (NextSibling n);
          Done (found ++ rest)
      end
  end.

Fixpoint firstWithId (fuel : nat) (node : option ptr) (id : string)
  (recursive : bool) : outcome (option ptr) :=
  match fuel with
  | O => OutOfFuel
  | S fuel' =>
      n ← load node;
      c ← scan fuel' (idMatch id) (FirstChild n);
      match c with
      | Some _ => Done c
      | None =>
          if negb recursive then Done None
          else descend fuel'
                 (fun a cn =>
                    if isElement cn
                    then firstWithId fuel' (Some a) id true
                    else Done None)
                 (FirstChild n)
      end
  end.

Fixpoint firstWithClassName (fuel : nat) (node : option ptr)
  (className : string) (recursive : bool) : outcome (option ptr) :=
  match fuel with
  | O => OutOfFuel
  | S fuel' =>
      n ← load node;
      c ← scan fuel' (hasClass className) (FirstChild n);
      match c with
      | Some _ => Done c
      | None =>
          if negb recursive then Done None
          else descend fuel'
                 (fun a _ =>
                    firstWithClassName fuel' (Some a) className true)
                 (FirstChild n)
      end
  end.

Fixpoint allWithClassName (fuel : nat) (node : option ptr)
  (className : string) (recursive : bool) : outcome (list ptr) :=
  match fuel with
  | O => OutOfFuel
  | S fuel' =>
      n ← load node;
      let res := match node with
                 | Some a => if hasClass className n then [a] else []
                 | None => []
                 end in
      if negb recursive then Done res
      else
        below ← collect fuel'
                  (fun a _ =>
                     allWithClassName fuel' (Some a) className true)
                  (FirstChild n);
        Done (res ++ below)
  end.

Fixpoint firstWithTag (fuel : nat) (node : option ptr)
  (tagName : string) (recursive : bool) : outcome (option ptr) :=
  match fuel with
  | O => OutOfFuel
  | S fuel' =>
      n ← load node;
      c ← scan fuel' (tagMatch tagName) (FirstChild n);
      match c with
      | Some _ => Done c
      | None =>
          if negb recursive then Done None
          else descend fuel'
                 (fun a _ => firstWithTag fuel' (Some a) tagName true)
                 (FirstChild n)
      end
  end.

Fixpoint allWithTag (fuel : nat) (node : option ptr) (tagName : string)
  (recursive : bool) : outcome (list ptr) :=
  match fuel with
  | O => OutOfFuel
  | S fuel' =>
      n ← load node;
      collect fuel'
        (fun a cn =>
           let hit := if tagMatch tagName cn then [a] else [] in
           if recursive then
             below ← allWithTag fuel' (Some a) tagName true;
             Done (hit ++ below)
           else Done hit)
        (FirstChild n)
  end.

Definition SelectAll (fuel : nat) (node : option ptr)
  (selector : Selector) : outcome (option (list (option ptr))) :=
  if (0 <? len (Id selector))%nat then
    node' ← firstWithId fuel node (Id selector) (Recursive selector);
    match node' with
    | None => Done (Some [node'])
    | Some _ => Done (Some [])
    end
  else if (0 <? len (ClassName selector))%nat then
    res ← allWithClassName fuel node (ClassName selector)
            (Recursive selector);
    Done (Some (map Some res))
  else if (0 <? len (Tag selector))%nat then
    res ← allWithTag fuel node (Tag selector) (Recursive selector);
    Done (Some (map Some res))
  else Done None.

Definition SelectFirst (fuel : nat) (node : option ptr)
  (selector : Selector) : outcome (option ptr) :=
  if (0 <? len (Id selector))%nat then
    firstWithId fuel node (Id selector) (Recursive selector)
  else if (0 <? len (ClassName selector))%nat then
    firstWithClassName fuel node (ClassName selector)
      (Recursive selector)
  else if (0 <? len (Tag selector))%nat then
    firstWithTag fuel node (Tag selector) (Recursive selector)
  else Done None.

(** The exported variants. *)
Definition FirstWithId (fuel : nat) (node : option ptr) (id : string) :=
  firstWithId fuel node id false.
Definition FirstWithIdR (fuel : nat) (node : option ptr) (id : string) :=
  firstWithId fuel node id true.
Definition FirstWithClassName (fuel : nat) (node : option ptr)
  (className : string) := firstWithClassName fuel node className false.
Definition FirstWithClassNameR (fuel : nat) (node : option ptr)
  (className : string) := firstWithClassName fuel node className true.
Definition AllWithClassName (fuel : nat) (node : option ptr)
  (className : string) := allWithClassName fuel node className false.
Definition AllWithClassNameR (fuel : nat) (node : option ptr)
  (className : string) := allWithClassName fuel node className true.
Definition FirstWithTag (fuel : nat) (node : option ptr) (tagName : string) :=
  firstWithTag fuel node tagName false.
Definition FirstWithTagR (fuel : nat) (node : option ptr) (tagName : string) :=
  firstWithTag fuel node tagName true.
Definition AllWithTag (fuel : nat) (node : option ptr) (tagName : string) :=
  allWithTag fuel node tagName false.
Definition AllWithTagR (fuel : nat) (node : option ptr) (tagName : string) :=
  allWithTag fuel node tagName true.

(** [Attr(node, attr)]; in this module [Attr] names the field, hence
    [GetAttr]. *)
Definition GetAttr (node : option ptr) (attr : string) : outcome string :=
  n ← load node; Done (attrLoop (Attr n) attr).

(** [HasClass(node, className)]. *)
Definition HasClass (node : option ptr) (className : string) : outcome bool :=
  n ← load node; Done (hasClassLoop (Attr n) className).

Definition isText (n : cell) : bool :=
  html.NodeType_eqb (Type_ n) TextNode.

(** The loop of [TextContent] over the sibling chain. *)
Fixpoint textLoop (fuel : nat) (c : option ptr) : outcome string :=
  match c with
  | None => Done ""
  | Some _ =>
      match fuel with
      | O => OutOfFuel
      | S fuel' =>
          n ← load c;
          if isText n then Done (strings.Trim (Data n) cutsetChild)
          else textLoop fuel' (NextSibling n)
      end
  end.

Definition TextContent (fuel : nat) (node : option ptr) : outcome string :=
  n ← load node;
  if isText n then Done (strings.Trim (Data n) cutsetSelf)
  else textLoop fuel (FirstChild n).

(** *** The store holds a finite tree

    [chain c ts]: the sibling chain that starts at [c] holds the
    trees [ts], in order, and ends with [nil]. *)
Inductive chain : option ptr -> list html.Node -> Prop :=
| chain_nil : chain None []
| chain_cons a n t ts :
    h !! a = Some n ->
    Type_ n = html.Type_ t ->
    Data n = html.Data t ->
    Attr n = html.Attr t ->
    chain (FirstChild n) (html.Children t) ->
    chain (NextSibling n) ts ->
    chain (Some a) (t :: ts).

(** [repr a t]: the node at [a] and what hangs below it is the
    finite tree [t]; its own [NextSibling] is not looked at. *)
Definition repr (a : ptr) (t : html.Node) : Prop :=
  exists n,
    h !! a = Some n /\ Type_ n = html.Type_ t /\ Data n = html.Data t
    /\ Attr n = html.Attr t /\ chain (FirstChild n) (html.Children t).

(** The [i]-th node of the chain that starts at [c]. *)
Fixpoint nthSibling (c : option ptr) (i : nat) : option ptr :=
  match i with
  | O => c
  | S i' =>
      match c with
      | None => None
      | Some a =>
          match h !! a with
          | Some n => nthSibling (NextSibling n) i'
          | None => None
          end
      end
  end.

(** The address a reference leads to from the node at [a]. *)
Fixpoint locate (a : ptr) (r : ref) : option ptr :=
  match r with
  | [] => Some a
  | i :: r' =>
      match h !! a with
      | Some n =>
          match nthSibling (FirstChild n) i with
          | Some c => locate c r'
          | None => None
          end
      | None => None
      end
  end.

(** [q] is the node that [r] leads to when its first index is counted
    from the chain position [c], itself at index [i]. *)
Definition fromChain (c : option ptr) (i : nat) (q : ptr) (r : ref) : Prop :=
  exists j el cj,
    r = (i + j) :: el /\ nthSibling c j = Some cj /\ locate cj el = Some q.

(** [q] is the node the reference [r] leads to from the node at [a]. *)
Definition leadsTo (a : ptr) (q : ptr) (r : ref) : Prop :=
  locate a r = Some q.

End WithStore.

(** A store with a cycle: the node at address [0] is its own first
    child. *)
Definition cyclic : gmap ptr cell :=
  {[ 0 := mkCell ElementNode "div" [] (Some 0) None ]}.

(** The store of [<div><span id="x"></span><a class="c"></a></div>]:
    the [div] at [0], its children at [1] and [2]. *)
Definition sampleStore : gmap ptr cell :=
  {[ 0 := mkCell ElementNode "div" [] (Some 1) None;
     1 := mkCell ElementNode "span" [mkAttribute "" "id" "x"] None (Some 2);
     2 := mkCell ElementNode "a" [mkAttribute "" "class" "c"] None None ]}.

(** The store of
    [<div><div class="product"><a href="/p">Go</a></div></div>]: the
    outer [div] at [0], the product at [1], the link at [2] and its
    text at [3]. *)
Definition shopStore : gmap ptr cell :=
  {[ 0 := mkCell ElementNode "div" [] (Some 1) None;
     1 := mkCell ElementNode "div" [mkAttribute "" "class" "product"]
            (Some 2) None;
     2 := mkCell ElementNode "a" [mkAttribute "" "href" "/p"] (Some 3) None;
     3 := mkCell TextNode "Go" [] None None ]}.

(** *** The wrapper [Node] and its methods

    [Node] holds the [backing] pointer.  A [*Node] is [None] when
    [nil]; [newNode] never gives [nil], so the elements of a [[]*Node]
    built by [newNodes] are wrappers. *)
Record Node : Set := mkWrapper { backing : option ptr }.

Definition newNode (b : option ptr) : Node := mkWrapper b.

(** [for _, n := range b { r = append(r, newNode(n)) }] *)
Fixpoint newNodes (b : list (option ptr)) : list Node :=
  match b with
  | [] => []
  | n :: b' => newNode n :: newNodes b'
  end.

Module Method.

(** [n.backing] on a receiver [n *Node]: a [nil] receiver panics. *)
Definition backingOf (n : option Node) : outcome (option ptr) :=
  match n with
  | None => Panic
  | Some w => Done (backing w)
  end.

(** [if res != nil { return newNode(res) }; return nil] *)
Definition wrapFirst (res : option ptr) : option Node :=
  match res with
  | Some _ => Some (newNode res)
  | None => None
  end.

Section WithStore.

Variable h : gmap ptr cell.

Definition AllWithClassName (fuel : nat) (n : option Node)
  (className : string) : outcome (list Node) :=
  b ← backingOf n;
  res ← Ptr.AllWithClassName h fuel b className;
  Done (newNodes (map Some res)).

Definition AllWithClassNameR (fuel : nat) (n : option Node)
  (className : string) : outcome (list Node) :=
  b ← backingOf n;
  res ← Ptr.AllWithClassNameR h fuel b className;
  Done (newNodes (map Some res)).

Definition AllWithTag (fuel : nat) (n : option Node) (tagName : string)
  : outcome (list Node) :=
  b ← backingOf n;
  res ← Ptr.AllWithTag h fuel b tagName;
  Done (newNodes (map Some res)).

Definition AllWithTagR (fuel : nat) (n : option Node) (tagName : string)
  : outcome (list Node) :=
  b ← backingOf n;
  res ← Ptr.AllWithTagR h fuel b tagName;
  Done (newNodes (map Some res)).

Definition Attr (n : option Node) (attr : string) : outcome string :=
  b ← backingOf n; GetAttr h b attr.

Definition FirstWithClassName (fuel : nat) (n : option Node)
  (className : string) : outcome (option Node) :=
  b ← backingOf n;
  res ← Ptr.FirstWithClassName h fuel b className;
  Done (wrapFirst res).

Definition FirstWithClassNameR (fuel : nat) (n : option Node)
  (className : string) : outcome (option Node) :=
  b ← backingOf n;
  res ← Ptr.FirstWithClassNameR h fuel b className;
  Done (wrapFirst res).

Definition FirstWithId (fuel : nat) (n : option Node) (id : string)
  : outcome (option Node) :=
  b ← backingOf n;
  res ← Ptr.FirstWithId h fuel b id;
  Done (wrapFirst res).

Definition FirstWithIdR (fuel : nat) (n : option Node) (id : string)
  : outcome (option Node) :=
  b ← backingOf n;
  res ← Ptr.FirstWithIdR h fuel b id;
  Done (wrapFirst res).

Definition FirstWithTag (fuel : nat) (n : option Node) (tag : string)
  : outcome (option Node) :=
  b ← backingOf n;
  res ← Ptr.FirstWithTag h fuel b tag;
  Done (wrapFirst res).

Definition FirstWithTagR (fuel : nat) (n : option Node) (tag : string)
  : outcome (option Node) :=
  b ← backingOf n;
  res ← Ptr.FirstWithTagR h fuel b tag;
  Done (wrapFirst res).

Definition HasClass (n : option Node) (className : string) : outcome bool :=
  b ← backingOf n; Ptr.HasClass h b className.

(** [if res != nil { return newNodes(res) }; return nil] *)
Definition SelectAll (fuel : nat) (n : option Node) (selector : Selector)
  : outcome (option (list Node)) :=
  b ← backingOf n;
  res ← Ptr.SelectAll h fuel b selector;
  match res with
  | Some l => Done (Some (newNodes l))
  | None => Done None
  end.

Definition SelectFirst (fuel : nat) (n : option Node) (selector : Selector)
  : outcome (option Node) :=
  b ← backingOf n;
  res ← Ptr.SelectFirst h fuel b selector;
  Done (wrapFirst res).

(** [fmt.Sprintf("%v", n.backing.Data)]: the data as it is. *)
Definition String (n : option Node) : outcome string :=
  b ← backingOf n;
  c ← load h b;
  Done (Data c).

Definition TextContent (fuel : nat) (n : option Node) : outcome string :=
  b ← backingOf n; Ptr.TextContent h fuel b.

End WithStore.

End Method.

(** A first-match method hands out [nil] when the tree view finds
    nothing, and else a wrapper around the node that the reference of
    the tree view leads to from the node at [a]. *)
Definition wrapsResult (h : gmap ptr cell) (a : ptr) (res : option Node)
  (found : option ref) : Prop :=
  match res, found with
  | None, None => True
  | Some w, Some r => exists q, backing w = Some q /\ leadsTo h a q r
  | _, _ => False
  end.

End Ptr.

(** The tree held by [Ptr.shopStore] at address [0]. *)
Definition shopTree : html.Node :=
  mkNode ElementNode "div" []
    [ mkNode ElementNode "div" [mkAttribute "" "class" "product"]
        [ mkNode ElementNode "a" [mkAttribute "" "href" "/p"]
            [ mkNode TextNode "Go" [] [] ] ] ].

(** The tree held by [Ptr.sampleStore] at address [0]. *)
Definition sampleStoreTree : html.Node :=
  mkNode ElementNode "div" []
    [ mkNode ElementNode "span" [mkAttribute "" "id" "x"] [];
      mkNode ElementNode "a" [mkAttribute "" "class" "c"] [] ].

(** The number of nodes of a tree: a bound on the fuel any traversal
    needs. *)
Fixpoint size (t : html.Node) : nat :=
  S (list_sum (map size (html.Children t))).

(** ** Vocabulary of the statements *)

(** [v] is the value of the first entry of [attrs] whose key is [key]. *)
Definition FirstEntry (attrs : list html.Attribute) (key v : string) : Prop :=
  exists pre a post,
    attrs = pre ++ a :: post
    /\ Forall (fun b => html.Key b <> key) pre
    /\ html.Key a = key /\ html.Val a = v.

(** No entry of [attrs] has the key [key]. *)
Definition NoEntry (attrs : list html.Attribute) (key : string) : Prop :=
  Forall (fun b => html.Key b <> key) attrs.

(** An element whose [id] reads [id]; an element without an [id]
    attribute reads as the empty string, as [Attr] has it. *)
Definition HasId (id : string) (c : html.Node) : Prop :=
  html.Type_ c = ElementNode /\ Attr c "id" = id.

(** An element whose tag is [tagName]. *)
Definition HasTag (tagName : string) (c : html.Node) : Prop :=
  html.Type_ c = ElementNode /\ html.Data c = tagName.

Definition IsElement (c : html.Node) : Prop := html.Type_ c = ElementNode.

(** [below through t r c]: [r] leads from [t] down to [c], [c] is not
    [t], and every node strictly between the two satisfies [through]. *)
Inductive below (through : html.Node -> Prop)
  : html.Node -> ref -> html.Node -> Prop :=
| below_child t i c :
    html.Children t !! i = Some c -> below through t [i] c
| below_deeper t i c r d :
    html.Children t !! i = Some c -> through c ->
    below through c r d -> below through t (i :: r) d.

(** The shape of what the parser hangs below a node: only elements
    have children. *)
Inductive parserShaped : html.Node -> Prop :=
| parserShaped_node t :
    (forall c, c ∈ html.Children t -> IsElement c \/ html.Children c = []) ->
    (forall c, c ∈ html.Children t -> parserShaped c) ->
    parserShaped t.

(** The scope of a by-id search: the immediate children, and in
    recursive mode what is reached from them through elements. *)
Definition idScope (recursive : bool) (t : html.Node) (r : ref)
  (c : html.Node) : Prop :=
  if recursive then below IsElement t r c
  else exists i, r = [i] /\ html.Children t !! i = Some c.

(** The scope of the by-tag traversals: the immediate children, and in
    recursive mode every node below. *)
Definition tagScope (recursive : bool) (t : html.Node) (r : ref)
  (c : html.Node) : Prop :=
  r <> [] /\ deref t r = Some c /\ (recursive = true \/ length r = 1).

(** The scope of the by-class "all" traversal: the queried node, and in
    recursive mode every node below. *)
Definition classScope (recursive : bool) (t : html.Node) (r : ref)
  (c : html.Node) : Prop :=
  deref t r = Some c /\ (recursive = true \/ r = []).

(** The references of a tree in pre-order: the node itself, then for
    each child in document order the whole listing of that child. *)
Fixpoint preorder (t : html.Node) : list ref :=
  [] :: concat (zip_with (fun i sub => map (cons i) sub)
                  (seq 0 (length (html.Children t)))
                  (map preorder (html.Children t))).

(** The listings of the children [cs], the first of them at index
    [i]. *)
Definition chunks (i : nat) (cs : list html.Node) : list ref :=
  concat (zip_with (fun k sub => map (cons k) sub)
            (seq i (length cs)) (map preorder cs)).

(** Document order on references: a node comes before what lies below
    it, and an earlier sibling's subtree before a later sibling. *)
Fixpoint docBefore (r r' : ref) : Prop :=
  match r, r' with
  | [], _ :: _ => True
  | i :: s, j :: s' => i < j \/ (i = j /\ docBefore s s')
  | _, _ => False
  end.

(** [test] holds of the node [r] points to. *)
Definition holdsAt (test : html.Node -> bool) (t : html.Node) (r : ref)
  : bool :=
  match deref t r with
  | Some c => test c
  | None => false
  end.

(** The order in which the by-id search meets the nodes in its scope:
    at a visited node every immediate child comes before everything
    deeper; the children among themselves, and the deeper nodes by the
    child they lie below, follow document order. *)
Fixpoint searchedBefore (r r' : ref) : Prop :=
  match r, r' with
  | [i], [j] => i <= j
  | [_], _ :: _ :: _ => True
  | i :: (_ :: _) as s, j :: (_ :: _) as s' =>
      i < j \/ (i = j /\ searchedBefore s s')
  | _, _ => False
  end.

(** The reading of "document-order-first among those at the shallowest
    qualifying depth" for the recursive by-id search on [t]. *)
Definition shallowestFirst (t : html.Node) (id : string) : Prop :=
  forall r, firstWithId t id true = Some r ->
    forall r' c', idScope true t r' c' -> HasId id c' ->
      length r <= length r'.

(** A leading, a trailing and a doubled space. *)
Definition leadingSpace (v : string) : Prop :=
  exists w, v = String " " w.
Definition trailingSpace (v : string) : Prop :=
  exists w, v = (w ++ " ")%string.
Definition doubledSpace (v : string) : Prop :=
  exists u w, v = (u ++ String " " (String " " w))%string.

(** No byte of [s] is [c]. *)
Fixpoint freeOf (c : ascii) (s : string) : Prop :=
  match s with
  | EmptyString => True
  | String d s' => d <> c /\ freeOf c s'
  end.

(** Every byte of [s] is in [cutset]. *)
Fixpoint allIn (cutset s : string) : Prop :=
  match s with
  | EmptyString => True
  | String c s' => strings.inCutset c cutset = true /\ allIn cutset s'
  end.

(** [t] neither starts nor ends with a byte of [cutset]. *)
Definition trimmed (cutset t : string) : Prop :=
  (forall c t', t = String c t' -> strings.inCutset c cutset = false)
  /\ (forall t' c, t = (t' ++ String c "")%string ->
        strings.inCutset c cutset = false).

(** [c] is one of the pieces of [v] between single spaces: it holds no
    space, and in [v] it has nothing or a space before it and nothing
    or a space after it. *)
Definition tokenOf (c v : string) : Prop :=
  freeOf " " c
  /\ exists pre post,
       v = (pre ++ c ++ post)%string
       /\ (pre = "" \/ exists u, pre = (u ++ " ")%string)
       /\ (post = "" \/ exists w, post = String " " w).

(** ** Sample trees *)

Definition element (tagName : string) (attrs : list (string * string))
  (cs : list html.Node) : html.Node :=
  mkNode ElementNode tagName
    (map (fun kv => mkAttribute "" kv.1 kv.2) attrs) cs.

Definition text (data : string) : html.Node := mkNode TextNode data [] [].

(** [<div><span id="x">Hi</span><a class="c" href="/p">Go</a></div>] *)
Definition sampleDiv : html.Node :=
  element "div" []
    [ element "span" [("id", "x")] [text "Hi"];
      element "a" [("class", "c"); ("href", "/p")] [text "Go"] ].

(** [<r><a><b><i id="x"></i></b></a><c><u id="x"></u></c></r>]: the
    first [id="x"] in search order is three levels down, the second
    two. *)
Definition sampleDeep : html.Node :=
  element "r" []
    [ element "a" [] [element "b" [] [element "i" [("id", "x")] []]];
      element "c" [] [element "u" [("id", "x")] []] ].

(** [<p><b></b>Hi</p>]: an element first, a text node second. *)
Definition sampleMixed : html.Node :=
  element "p" [] [element "b" [] []; text "Hi"].

(** [<p>Hi\r</p>]: the text ends with a carriage return. *)
Definition sampleCR : html.Node :=
  element "p" [] [text (String "H" (String "i" (String "013" "")))].

(** * Properties *)

(** ** [strings.Split] and [strings.Trim] *)

Lemma append_cons c (u v : string) :
  (String c u ++ v)%string = String c (u ++ v)%string.
Proof. reflexivity. Qed.

Lemma append_assoc (u v w : string) :
  ((u ++ v) ++ w = u ++ (v ++ w))%string.
Proof.
  induction u as [|c u IH]; [reflexivity|].
  rewrite !append_cons. now f_equal.
Qed.

Lemma append_nil_r (u : string) : (u ++ "")%string = u.
Proof.
  induction u as [|c u IH]; [reflexivity|].
  rewrite append_cons. now f_equal.
Qed.

Section SplitFacts.

Variable sep : ascii.

Lemma Split_not_nil s : strings.Split s sep <> [].
Proof.
  destruct s as [|c s]; simpl; [discriminate|].
  destruct (Ascii.eqb c sep); [discriminate|].
  destruct (strings.Split s sep); discriminate.
Qed.

Lemma Split_cons_sep s :
  strings.Split (String sep s) sep = EmptyString :: strings.Split s sep.
Proof. simpl. now rewrite Ascii.eqb_refl. Qed.

Lemma Split_cons_other c s :
  c <> sep ->
  exists tok toks,
    strings.Split s sep = tok :: toks
    /\ strings.Split (String c s) sep = String c tok :: toks.
Proof.
  intros Hc. simpl.
  destruct (Ascii.eqb_spec c sep) as [->|_]; [congruence|].
  destruct (strings.Split s sep) as [|tok toks] eqn:E.
  - now apply Split_not_nil in E.
  - eauto.
Qed.

(** Joining the tokens with the separator gives the string back. *)
Lemma Join_Split s : strings.Join (strings.Split s sep) sep = s.
Proof.
  induction s as [|c s IH]; [reflexivity|].
  destruct (Ascii.eqb_spec c sep) as [->|Hc].
  - rewrite Split_cons_sep.
    change (strings.Join (EmptyString :: strings.Split s sep) sep)
      with (match strings.Split s sep with
            | [] => EmptyString
            | _ :: _ => String sep (strings.Join (strings.Split s sep) sep)
            end).
    destruct (strings.Split s sep) eqn:E;
      [now apply Split_not_nil in E | now rewrite IH].
  - destruct (Split_cons_other c s Hc) as (tok & toks & E1 & E2).
    rewrite E2. rewrite E1 in IH.
    destruct toks as [|tok' toks]; simpl in IH |- *;
      rewrite <- IH; reflexivity.
Qed.

(** No token holds the separator. *)
Lemma Split_freeOf s : Forall (freeOf sep) (strings.Split s sep).
Proof.
  induction s as [|c s IH].
  - repeat constructor.
  - destruct (Ascii.eqb_spec c sep) as [->|Hc].
    + rewrite Split_cons_sep. constructor; [exact I | exact IH].
    + destruct (Split_cons_other c s Hc) as (tok & toks & E1 & E2).
      rewrite E2. rewrite E1 in IH.
      apply Forall_cons in IH as [Htok Htoks].
      constructor; [split; assumption | exact Htoks].
Qed.

Lemma Split_freeOf_one tok :
  freeOf sep tok -> strings.Split tok sep = [tok].
Proof.
  induction tok as [|c tok IH]; [reflexivity|].
  intros [Hc Hfree]. simpl.
  destruct (Ascii.eqb_spec c sep) as [->|_]; [congruence|].
  now rewrite IH.
Qed.

Lemma Split_app_sep tok s :
  freeOf sep tok ->
  strings.Split (tok ++ String sep s)%string sep
  = tok :: strings.Split s sep.
Proof.
  induction tok as [|c tok IH]; intros Hfree.
  - apply Split_cons_sep.
  - destruct Hfree as [Hc Hfree].
    change (String c tok ++ String sep s)%string
      with (String c (tok ++ String sep s)%string).
    destruct (Split_cons_other c (tok ++ String sep s)%string Hc)
      as (tok' & toks & E1 & E2).
    rewrite E2. rewrite IH in E1 by assumption. now inversion E1.
Qed.

(** [Split] is the only way to cut a string into tokens free of the
    separator. *)
Lemma Split_Join toks :
  toks <> [] -> Forall (freeOf sep) toks ->
  strings.Split (strings.Join toks sep) sep = toks.
Proof.
  induction toks as [|tok toks IH]; [congruence|].
  intros _ Hfree. apply Forall_cons in Hfree as [Htok Htoks].
  destruct toks as [|tok' toks].
  - now apply Split_freeOf_one.
  - change (strings.Join (tok :: tok' :: toks) sep)
      with (tok ++ String sep (strings.Join (tok' :: toks) sep))%string.
    rewrite Split_app_sep by assumption.
    now rewrite IH.
Qed.

End SplitFacts.

(** *** Where the empty token comes from *)

Section EmptyToken.

Local Abbreviation sp := (" "%char).

Lemma trailingSpace_nil : ~ trailingSpace "".
Proof. intros [[|c w] Hw]; discriminate. Qed.

Lemma doubledSpace_nil : ~ doubledSpace "".
Proof. intros ([|c u] & w & Hw); discriminate. Qed.

Lemma trailingSpace_cons c s :
  trailingSpace (String c s) <-> (c = sp /\ s = "") \/ trailingSpace s.
Proof.
  split.
  - intros [[|d w] Hw]; simpl in Hw; inversion Hw; subst.
    + now left.
    + right. now exists w.
  - intros [[-> ->]|[w ->]].
    + now exists "".
    + now exists (String c w).
Qed.

Lemma doubledSpace_cons c s :
  doubledSpace (String c s) <-> (c = sp /\ leadingSpace s) \/ doubledSpace s.
Proof.
  split.
  - intros ([|d u] & w & Hw); simpl in Hw; inversion Hw; subst.
    + left. split; [reflexivity | now exists w].
    + right. now exists u, w.
  - intros [[-> [w ->]]|(u & w & ->)].
    + now exists "", w.
    + now exists (String c u), w.
Qed.

(** The first token is empty exactly for the empty string and for a
    leading space. *)
Lemma Split_head_empty s tok toks :
  strings.Split s sp = tok :: toks ->
  (tok = "" <-> s = "" \/ leadingSpace s).
Proof.
  destruct s as [|c s]; intros E.
  - inversion E. tauto.
  - destruct (Ascii.eqb_spec c sp) as [->|Hc].
    + rewrite Split_cons_sep in E. inversion E; subst.
      split; [right; now exists s | reflexivity].
    + destruct (Split_cons_other sp c s Hc) as (tok' & toks' & _ & E2).
      rewrite E2 in E. inversion E; subst.
      split; [discriminate|].
      intros [?|[w Hw]]; [discriminate | inversion Hw; congruence].
Qed.

(** A later token is empty exactly for a trailing or a doubled
    space. *)
Lemma Split_tail_empty s : forall tok toks,
  strings.Split s sp = tok :: toks ->
  ("" ∈ toks <-> trailingSpace s \/ doubledSpace s).
Proof.
  induction s as [|c s IH]; intros tok toks E.
  - inversion E; subst. split.
    + intros H. inversion H.
    + intros [H|H]; [now apply trailingSpace_nil in H
                    | now apply doubledSpace_nil in H].
  - rewrite trailingSpace_cons, doubledSpace_cons.
    destruct (Ascii.eqb_spec c sp) as [->|Hc].
    + rewrite Split_cons_sep in E. inversion E; subst.
      destruct (strings.Split s sp) as [|tok' toks'] eqn:E';
        [now apply Split_not_nil in E'|].
      rewrite elem_of_cons, (IH _ _ eq_refl).
      pose proof (Split_head_empty s tok' toks' E') as Hhead.
      split.
      * intros [H|[H|H]]; [symmetry in H; apply Hhead in H|..]; tauto.
      * intros [[[_ H]|H]|[[_ H]|H]]; try tauto;
          left; symmetry; apply Hhead; tauto.
    + destruct (Split_cons_other sp c s Hc) as (tok' & toks' & E1 & E2).
      rewrite E2 in E. inversion E; subst.
      rewrite (IH _ _ E1). tauto.
Qed.

Lemma Split_empty_token s :
  "" ∈ strings.Split s sp
  <-> s = "" \/ leadingSpace s \/ trailingSpace s \/ doubledSpace s.
Proof.
  destruct (strings.Split s sp) as [|tok toks] eqn:E;
    [now apply Split_not_nil in E|].
  rewrite elem_of_cons, (Split_tail_empty s tok toks E).
  pose proof (Split_head_empty s tok toks E) as Hhead.
  split.
  - intros [H|H]; [symmetry in H; apply Hhead in H|]; tauto.
  - intros [H|[H|H]]; try tauto; left; symmetry; apply Hhead; tauto.
Qed.

End EmptyToken.

(** ** [Attr] and [HasClass] *)

Lemma classLoop_elem_of classes className :
  classLoop classes className = true <-> className ∈ classes.
Proof.
  induction classes as [|class classes IH]; simpl.
  - split; [discriminate | intros H; inversion H].
  - rewrite elem_of_cons.
    destruct (String.eqb_spec class className) as [->|Hne].
    + tauto.
    + rewrite IH. split; [tauto | intros [?|?]; congruence].
Qed.

Lemma FirstEntry_nil key v : ~ FirstEntry [] key v.
Proof. intros ([|b pre] & a & post & E & _); discriminate. Qed.

Lemma FirstEntry_cons a attrs key v :
  FirstEntry (a :: attrs) key v
  <-> (html.Key a = key /\ html.Val a = v)
      \/ (html.Key a <> key /\ FirstEntry attrs key v).
Proof.
  split.
  - intros ([|b pre] & a' & post & E & Hpre & Hk & Hv);
      simpl in E; inversion E; subst.
    + now left.
    + apply Forall_cons in Hpre as [Hb Hpre].
      right. split; [exact Hb|]. now exists pre, a', post.
  - intros [[Hk Hv]|[Hk (pre & a' & post & -> & Hpre & Hk' & Hv)]].
    + exists [], a, attrs. repeat split; [constructor | assumption ..].
    + exists (a :: pre), a', post.
      repeat split; [constructor; assumption | assumption ..].
Qed.

Lemma FirstEntry_NoEntry attrs key v :
  FirstEntry attrs key v -> ~ NoEntry attrs key.
Proof.
  intros (pre & a & post & -> & _ & Hk & _) Hno.
  apply Forall_app in Hno as [_ Hno].
  apply Forall_cons in Hno as [Hno _]. contradiction.
Qed.

(** [Attr] reads the first entry with the key, and is empty without
    one. *)
Lemma attrLoop_FirstEntry attrs key v :
  FirstEntry attrs key v -> attrLoop attrs key = v.
Proof.
  induction attrs as [|a attrs IH]; intros H.
  - now apply FirstEntry_nil in H.
  - apply FirstEntry_cons in H. simpl.
    destruct (String.eqb_spec (html.Key a) key) as [Hk|Hk];
      destruct H as [[? ?]|[? ?]]; try congruence. now apply IH.
Qed.

Lemma attrLoop_NoEntry attrs key : NoEntry attrs key -> attrLoop attrs key = "".
Proof.
  induction 1 as [|a attrs Ha _ IH]; [reflexivity|]. simpl.
  destruct (String.eqb_spec (html.Key a) key); [contradiction | exact IH].
Qed.

Lemma hasClassLoop_NoEntry attrs className :
  NoEntry attrs "class" -> hasClassLoop attrs className = false.
Proof.
  induction 1 as [|a attrs Ha _ IH]; [reflexivity|]. simpl.
  destruct (String.eqb_spec (html.Key a) "class"); [contradiction | exact IH].
Qed.

Lemma hasClassLoop_FirstEntry attrs className v :
  FirstEntry attrs "class" v ->
  hasClassLoop attrs className = classLoop (strings.Split v " ") className.
Proof.
  induction attrs as [|a attrs IH]; intros H.
  - now apply FirstEntry_nil in H.
  - apply FirstEntry_cons in H. simpl.
    destruct (String.eqb_spec (html.Key a) "class") as [Hk|Hk];
      destruct H as [[? ?]|[? ?]]; try congruence. now apply IH.
Qed.

(** Either one entry is the first with the key, or none has it. *)
Lemma FirstEntry_or_NoEntry attrs key :
  (exists v, FirstEntry attrs key v) \/ NoEntry attrs key.
Proof.
  induction attrs as [|a attrs [[v IH]|IH]].
  - right. constructor.
  - left. destruct (String.eqb_spec (html.Key a) key) as [Hk|Hk].
    + exists (html.Val a). apply FirstEntry_cons. now left.
    + exists v. apply FirstEntry_cons. now right.
  - destruct (String.eqb_spec (html.Key a) key) as [Hk|Hk].
    + left. exists (html.Val a). apply FirstEntry_cons. now left.
    + right. now constructor.
Qed.

(** *** A token, said without [Split] *)

Lemma elem_of_freeOf_Split sep v c :
  c ∈ strings.Split v sep -> freeOf sep c.
Proof.
  intros Hc. pose proof (Split_freeOf sep v) as H.
  rewrite Forall_forall in H. now apply H.
Qed.

Lemma Split_app_sep_l sep u s :
  strings.Split (u ++ String sep s)%string sep
  = strings.Split u sep ++ strings.Split s sep.
Proof.
  induction u as [|d u IH].
  - apply Split_cons_sep.
  - rewrite append_cons.
    destruct (Ascii.eqb_spec d sep) as [->|Hd].
    + rewrite !Split_cons_sep, IH. reflexivity.
    + destruct (Split_cons_other sep d u Hd) as (tok & toks & E1 & E2).
      destruct (Split_cons_other sep d (u ++ String sep s)%string Hd)
        as (tok' & toks' & E1' & E2').
      rewrite E2, E2'. rewrite IH, E1 in E1'. simpl in E1'.
      injection E1' as <- <-. reflexivity.
Qed.

Lemma Join_cons2 tok tok' toks sep :
  strings.Join (tok :: tok' :: toks) sep
  = (tok ++ String sep (strings.Join (tok' :: toks) sep))%string.
Proof. reflexivity. Qed.

(** In the joined string every token has nothing or the separator
    before it and nothing or the separator after it. *)
Lemma Join_token_between sep toks c :
  c ∈ toks ->
  exists pre post,
    strings.Join toks sep = (pre ++ c ++ post)%string
    /\ (pre = "" \/ exists u, pre = (u ++ String sep "")%string)
    /\ (post = "" \/ exists w, post = String sep w).
Proof.
  induction toks as [|tok toks IH]; intros Hc; [inversion Hc|].
  apply elem_of_cons in Hc as [->|Hc].
  - destruct toks as [|tok' toks].
    + exists "", "". split; [|auto].
      change (tok = (tok ++ "")%string). now rewrite append_nil_r.
    + exists "", (String sep (strings.Join (tok' :: toks) sep)).
      split; [reflexivity|]. split; [now left | right; now eexists].
  - destruct toks as [|tok' toks]; [inversion Hc|].
    destruct (IH Hc) as (pre & post & E & Hpre & Hpost).
    exists (tok ++ String sep pre)%string, post. split; [|split].
    + rewrite Join_cons2, E, append_assoc. reflexivity.
    + right. destruct Hpre as [->|[u ->]].
      * now exists tok.
      * exists (tok ++ String sep u)%string.
        rewrite append_assoc. reflexivity.
    + exact Hpost.
Qed.

(** The tokens that [Split] cuts at single spaces are the pieces
    between spaces. *)
Lemma elem_of_Split_tokenOf c v :
  c ∈ strings.Split v " " <-> tokenOf c v.
Proof.
  split.
  - intros Hc. split.
    + eapply elem_of_freeOf_Split; eassumption.
    + destruct (Join_token_between " " _ c Hc) as (pre & post & E & H).
      rewrite Join_Split in E. now exists pre, post.
  - intros [Hfree (pre & post & -> & Hpre & Hpost)].
    assert (Hhead : exists toks,
              strings.Split (c ++ post)%string " " = c :: toks).
    { destruct Hpost as [->|[w ->]].
      - rewrite append_nil_r, (Split_freeOf_one " " c Hfree). now eexists.
      - rewrite (Split_app_sep " " c w Hfree). now eexists. }
    destruct Hhead as [toks Htoks].
    destruct Hpre as [->|[u ->]].
    + change (c ∈ strings.Split (c ++ post)%string " ").
      rewrite Htoks. now left.
    + rewrite append_assoc.
      change (" " ++ c ++ post)%string with (String " " (c ++ post)%string).
      rewrite Split_app_sep_l, Htoks, elem_of_app. right. now left.
Qed.

(** C6: [HasClass n c] holds exactly when [n] has a [class] attribute
    and the value of the first entry with key [class], split on single
    spaces, has a token equal to [c]: [c] holds no space and stands in
    the value between the start or a space and a space or the end.
    The match is on whole tokens (class ["ab"] does not match ["a"],
    class ["a b"] matches ["b"] and not ["a b"]), it is case-sensitive,
    and of two [class] entries only the first counts. *)
Theorem HasClass_iff_token (n : html.Node) (c : string) :
  (HasClass n c = true
   <-> exists v, FirstEntry (html.Attr n) "class" v
                 /\ c ∈ strings.Split v " ")
  /\ HasClass (element "p" [("class", "ab")] []) "a" = false
  /\ HasClass (element "p" [("class", "ab")] []) "AB" = false
  /\ HasClass (element "p" [("class", "x"); ("class", "a")] []) "a" = false
  /\ HasClass (element "p" [("class", "x"); ("class", "a")] []) "x" = true
  /\ (HasClass n c = true
      <-> exists v, FirstEntry (html.Attr n) "class" v /\ tokenOf c v)
  /\ HasClass (element "p" [("class", "a b")] []) "b" = true
  /\ HasClass (element "p" [("class", "a b")] []) "a" = true
  /\ HasClass (element "p" [("class", "a b")] []) "a b" = false
  /\ HasClass (element "p" [("class", "ab cd")] []) "b" = false
  /\ HasClass (element "p" [("class", "A b")] []) "a" = false.
Proof.
  assert (Hiff : HasClass n c = true
                 <-> exists v, FirstEntry (html.Attr n) "class" v
                               /\ c ∈ strings.Split v " ").
  { unfold HasClass.
    destruct (FirstEntry_or_NoEntry (html.Attr n) "class") as [[v Hv]|Hno].
    - rewrite (hasClassLoop_FirstEntry _ _ _ Hv), classLoop_elem_of.
      split.
      + intros Hc. now exists v.
      + intros (v' & Hv' & Hc).
        apply (attrLoop_FirstEntry _ _ _) in Hv, Hv'. congruence.
    - rewrite (hasClassLoop_NoEntry _ _ Hno). split; [discriminate|].
      intros (v & Hv & _). now apply FirstEntry_NoEntry in Hv. }
  split; [exact Hiff|].
  do 4 (split; [reflexivity|]).
  split; [|repeat split; reflexivity].
  rewrite Hiff. split; intros (v & Hv & Hc); exists v;
    (split; [assumption|]); now apply elem_of_Split_tokenOf.
Qed.

(** C10: on a node with a [class] attribute, [HasClass n ""] holds
    exactly when the value of the first [class] entry is empty or has a
    leading, a trailing or a doubled space; on a node without a [class]
    attribute it is false. *)
Theorem HasClass_empty_target (n : html.Node) :
  (forall v, FirstEntry (html.Attr n) "class" v ->
     (HasClass n "" = true
      <-> v = "" \/ leadingSpace v \/ trailingSpace v \/ doubledSpace v))
  /\ (NoEntry (html.Attr n) "class" -> HasClass n "" = false).
Proof.
  split.
  - intros v Hv. unfold HasClass.
    rewrite (hasClassLoop_FirstEntry _ _ _ Hv), classLoop_elem_of.
    apply Split_empty_token.
  - apply hasClassLoop_NoEntry.
Qed.

Lemma HasClass_empty_target_witness :
  HasClass (element "p" [("id", "m"); ("class", "a  b")] []) "" = true
  /\ HasClass (element "p" [("id", "m")] []) "" = false.
Proof.
  split.
  - destruct (HasClass_empty_target
                (element "p" [("id", "m"); ("class", "a  b")] []))
      as [H _].
    apply (H "a  b").
    + exists [mkAttribute "" "id" "m"], (mkAttribute "" "class" "a  b"), [].
      repeat split. repeat constructor. discriminate.
    + right. right. right. now exists "a", "b".
  - destruct (HasClass_empty_target (element "p" [("id", "m")] []))
      as [_ H].
    apply H. repeat constructor. discriminate.
Defined.

(** ** [TextContent] *)

Section TrimFacts.

Local Abbreviation CR := ("013"%char).

(** [TrimRight] cuts off a run of cutset bytes at the end, and what is
    left does not end with one. *)
Lemma TrimRight_spec s cutset :
  exists r,
    s = (strings.TrimRight s cutset ++ r)%string /\ allIn cutset r
    /\ (forall t' c, strings.TrimRight s cutset = (t' ++ String c "")%string ->
          strings.inCutset c cutset = false).
Proof.
  induction s as [|c s (r & Hs & Hr & Hlast)].
  - exists "". repeat split. intros [|d t'] c H; discriminate.
  - cbn [strings.TrimRight].
    destruct (strings.TrimRight s cutset) as [|d rest] eqn:E.
    + change (s = r) in Hs. subst r.
      destruct (strings.inCutset c cutset) eqn:Ec.
      * exists (String c s). repeat split; [assumption ..|].
        intros [|d t'] c' H; discriminate.
      * exists s. repeat split; [assumption|].
        intros [|d t'] c' H.
        -- change (String c "" = String c' "") in H. congruence.
        -- rewrite append_cons in H. destruct t'; discriminate.
    + exists r. split; [rewrite append_cons; congruence|].
      split; [assumption|].
      intros [|e t'] c' H; [discriminate|].
      rewrite append_cons in H. injection H as -> H. now apply (Hlast t').
Qed.

(** [TrimLeft] cuts off a run of cutset bytes at the start, and what is
    left does not start with one. *)
Lemma TrimLeft_spec s cutset :
  exists l,
    s = (l ++ strings.TrimLeft s cutset)%string /\ allIn cutset l
    /\ (forall c t', strings.TrimLeft s cutset = String c t' ->
          strings.inCutset c cutset = false).
Proof.
  induction s as [|c s (l & Hs & Hl & Hfirst)].
  - exists "". repeat split. discriminate.
  - cbn [strings.TrimLeft]. destruct (strings.inCutset c cutset) eqn:Ec.
    + exists (String c l).
      repeat split; [rewrite append_cons; congruence | assumption ..].
    + exists "". repeat split. congruence.
Qed.

(** [Trim] gives the middle of the string, between a run of cutset
    bytes on each side, and that middle neither starts nor ends with a
    cutset byte. *)
Lemma Trim_spec s cutset :
  exists l r,
    s = (l ++ strings.Trim s cutset ++ r)%string
    /\ allIn cutset l /\ allIn cutset r
    /\ trimmed cutset (strings.Trim s cutset).
Proof.
  unfold strings.Trim.
  destruct (TrimRight_spec s cutset) as (r & Hs & Hr & Hlast).
  destruct (TrimLeft_spec (strings.TrimRight s cutset) cutset)
    as (l & Hm & Hl & Hfirst).
  exists l, r. repeat split; try assumption.
  - rewrite <- append_assoc, <- Hm. exact Hs.
  - intros t' c H. apply (Hlast (l ++ t')%string).
    rewrite Hm at 1. rewrite H. now rewrite append_assoc.
Qed.

Lemma inCutset_child_self c :
  c <> CR -> strings.inCutset c cutsetChild = strings.inCutset c cutsetSelf.
Proof.
  intros Hc. unfold cutsetChild, cutsetSelf. simpl.
  destruct (Ascii.eqb_spec c CR) as [->|_]; [congruence|].
  now rewrite !orb_false_r, orb_diag.
Qed.

Lemma TrimRight_freeOf c s cutset :
  freeOf c s -> freeOf c (strings.TrimRight s cutset).
Proof.
  induction s as [|d s IH]; [trivial|].
  intros [Hd Hs]. specialize (IH Hs). simpl.
  destruct (strings.TrimRight s cutset) as [|e rest].
  - destruct (strings.inCutset d cutset); simpl; auto.
  - simpl in *. tauto.
Qed.

Lemma TrimRight_child_self s :
  freeOf CR s ->
  strings.TrimRight s cutsetChild = strings.TrimRight s cutsetSelf.
Proof.
  induction s as [|d s IH]; [reflexivity|].
  intros [Hd Hs]. cbn [strings.TrimRight]. rewrite (IH Hs).
  now rewrite (inCutset_child_self d Hd).
Qed.

Lemma TrimLeft_child_self s :
  freeOf CR s ->
  strings.TrimLeft s cutsetChild = strings.TrimLeft s cutsetSelf.
Proof.
  induction s as [|d s IH]; [reflexivity|].
  intros [Hd Hs]. cbn [strings.TrimLeft]. rewrite (IH Hs).
  now rewrite (inCutset_child_self d Hd).
Qed.

(** On a string without a carriage return the two cutsets of the
    source trim alike. *)
Lemma Trim_child_self s :
  freeOf CR s -> strings.Trim s cutsetChild = strings.Trim s cutsetSelf.
Proof.
  intros Hs. unfold strings.Trim.
  rewrite (TrimRight_child_self s Hs).
  apply TrimLeft_child_self. now apply TrimRight_freeOf.
Qed.

End TrimFacts.

Lemma NodeType_eqb_eq a b : html.NodeType_eqb a b = true <-> a = b.
Proof. destruct a, b; simpl; split; congruence. Qed.

Lemma isText_true c : isText c = true <-> html.Type_ c = TextNode.
Proof. apply NodeType_eqb_eq. Qed.

Lemma isElement_true c : isElement c = true <-> html.Type_ c = ElementNode.
Proof. apply NodeType_eqb_eq. Qed.

Lemma isText_element c : html.Type_ c = ElementNode -> isText c = false.
Proof. unfold isText. now intros ->. Qed.

(** A text node gives its own data, trimmed of space, tab, newline and
    carriage return. *)
Lemma TextContent_text n :
  html.Type_ n = TextNode ->
  TextContent n = strings.Trim (html.Data n) cutsetSelf.
Proof. intros H. unfold TextContent. now rewrite (proj2 (isText_true n) H). Qed.

(** Without an immediate text child the result is empty. *)
Lemma TextContent_no_text_child n :
  html.Type_ n <> TextNode ->
  Forall (fun c => html.Type_ c <> TextNode) (html.Children n) ->
  TextContent n = "".
Proof.
  intros Hn Hcs. unfold TextContent.
  destruct (isText n) eqn:E; [now apply isText_true in E|].
  clear E. induction Hcs as [|c cs Hc _ IH]; [reflexivity|]. simpl.
  destruct (isText c) eqn:E; [now apply isText_true in E | exact IH].
Qed.

(** C4, as stated, fails: on [<p><b></b>Hi</p>] the result is the text
    of the second child. *)
Lemma TextContent_skips_leading_element :
  ~ (forall n c1 c2 rest,
       html.Type_ n = ElementNode ->
       html.Children n = c1 :: c2 :: rest ->
       html.Type_ c1 = ElementNode ->
       html.Type_ c2 = TextNode ->
       TextContent n = "").
Proof.
  intros H.
  specialize (H sampleMixed (element "b" [] []) (text "Hi") []
                eq_refl eq_refl eq_refl eq_refl).
  discriminate H.
Qed.

(** C4, amended: on an element whose first child is an element and
    whose second child is a text node, [TextContent] is the trimmed
    text of the second child (stated for text without a carriage
    return). *)
Theorem TextContent_second_child_text (n c1 c2 : html.Node)
  (rest : list html.Node) :
  html.Type_ n = ElementNode ->
  html.Children n = c1 :: c2 :: rest ->
  html.Type_ c1 = ElementNode ->
  html.Type_ c2 = TextNode ->
  freeOf "013" (html.Data c2) ->
  TextContent n = strings.Trim (html.Data c2) cutsetSelf.
Proof.
  intros Hn Hcs H1 H2 Hfree. unfold TextContent.
  rewrite (isText_element n Hn), Hcs. simpl.
  rewrite (isText_element c1 H1), (proj2 (isText_true c2) H2).
  now apply Trim_child_self.
Qed.

Lemma TextContent_second_child_text_witness :
  TextContent sampleMixed = "Hi".
Proof.
  apply (TextContent_second_child_text sampleMixed
           (element "b" [] []) (text "Hi") []);
    [reflexivity | reflexivity | reflexivity | reflexivity |].
  simpl. repeat split; discriminate.
Defined.

(** C5 fails on the code for a text child: the loop over the children
    trims with the cutset [" \t\n\n"], so a carriage return stays,
    while a text node itself is trimmed with [" \t\n\r"]. *)
Theorem TextContent_child_keeps_carriage_return :
  TextContent sampleCR = String "H" (String "i" (String "013" ""))
  /\ strings.Trim (String "H" (String "i" (String "013" ""))) cutsetSelf = "Hi"
  /\ TextContent (text (String "H" (String "i" (String "013" "")))) = "Hi".
Proof. repeat split; reflexivity. Qed.

(** ** The loops over the children *)

Section LoopFacts.

Lemma scan_None test cs i :
  scan test cs i = None <-> Forall (fun c => test c = false) cs.
Proof.
  revert i. induction cs as [|c cs IH]; intros i; simpl.
  - split; [constructor | reflexivity].
  - rewrite Forall_cons. destruct (test c).
    + split; [discriminate | intros [? _]; discriminate].
    + rewrite IH. tauto.
Qed.

(** [scan] gives the first child that passes the test. *)
Lemma scan_Some test cs i k :
  scan test cs i = Some k
  <-> exists j c,
        k = i + j /\ cs !! j = Some c /\ test c = true
        /\ forall j' c', j' < j -> cs !! j' = Some c' -> test c' = false.
Proof.
  revert i. induction cs as [|c cs IH]; intros i; simpl.
  - split; [discriminate | intros (j & c & _ & H & _); discriminate].
  - destruct (test c) eqn:E.
    + split.
      * intros [= <-]. exists 0, c.
        repeat split; [lia | assumption | intros; lia].
      * intros (j & c' & -> & Hj & _ & Hmin).
        destruct j as [|j]; [f_equal; lia|].
        specialize (Hmin 0 c ltac:(lia) eq_refl). congruence.
    + rewrite IH. split.
      * intros (j & c' & -> & Hj & Ht & Hmin). exists (S j), c'.
        repeat split; [lia | assumption | assumption |].
        intros [|j'] c'' Hlt Hc''; simpl in Hc''; [congruence|].
        apply (Hmin j'); [lia | assumption].
      * intros (j & c' & -> & Hj & Ht & Hmin).
        destruct j as [|j]; simpl in Hj; [congruence|].
        exists j, c'. repeat split; [lia | assumption | assumption |].
        intros j' c'' Hlt Hc''. apply (Hmin (S j')); [lia | assumption].
Qed.

Lemma descend_None f cs i :
  descend f cs i = None <-> Forall (fun c => f c = None) cs.
Proof.
  revert i. induction cs as [|c cs IH]; intros i; simpl.
  - split; [constructor | reflexivity].
  - rewrite Forall_cons. destruct (f c).
    + split; [discriminate | intros [? _]; discriminate].
    + rewrite IH. tauto.
Qed.

(** [descend] gives what [f] finds below the first child where it
    finds something. *)
Lemma descend_Some f cs i r :
  descend f cs i = Some r
  <-> exists j c el,
        r = (i + j) :: el /\ cs !! j = Some c /\ f c = Some el
        /\ forall j' c', j' < j -> cs !! j' = Some c' -> f c' = None.
Proof.
  revert i. induction cs as [|c cs IH]; intros i; simpl.
  - split; [discriminate | intros (j & c & el & _ & H & _); discriminate].
  - destruct (f c) as [el|] eqn:E.
    + split.
      * intros [= <-]. exists 0, c, el.
        repeat split; [f_equal; lia | assumption | intros; lia].
      * intros (j & c' & el' & -> & Hj & Hf & Hmin).
        destruct j as [|j].
        -- simpl in Hj. injection Hj as <-.
           rewrite E in Hf. injection Hf as <-. do 2 f_equal. lia.
        -- specialize (Hmin 0 c ltac:(lia) eq_refl). congruence.
    + rewrite IH. split.
      * intros (j & c' & el & -> & Hj & Hf & Hmin). exists (S j), c', el.
        repeat split; [f_equal; lia | assumption | assumption |].
        intros [|j'] c'' Hlt Hc''; simpl in Hc''; [congruence|].
        apply (Hmin j'); [lia | assumption].
      * intros (j & c' & el & -> & Hj & Hf & Hmin).
        destruct j as [|j]; simpl in Hj; [congruence|].
        exists j, c', el.
        repeat split; [f_equal; lia | assumption | assumption |].
        intros j' c'' Hlt Hc''. apply (Hmin (S j')); [lia | assumption].
Qed.

(** A reference collected at index [i] comes from the child [j]
    positions further. *)
Lemma elem_of_collect f cs i r :
  r ∈ collect f cs i
  <-> exists j c, cs !! j = Some c /\ r ∈ f (i + j) c.
Proof.
  revert i. induction cs as [|c cs IH]; intros i; simpl.
  - split; [intros H; inversion H | intros (j & c & H & _); discriminate].
  - rewrite elem_of_app, IH. split.
    + intros [H|(j & c' & Hj & H)].
      * exists 0, c. now rewrite Nat.add_0_r.
      * exists (S j), c'. now rewrite <- Nat.add_succ_comm.
    + intros ([|j] & c' & Hj & H); simpl in Hj.
      * injection Hj as <-. left. now rewrite Nat.add_0_r in H.
      * right. exists j, c'. now rewrite Nat.add_succ_comm.
Qed.

End LoopFacts.

(** ** By-id traversal *)

Lemma firstWithId_unfold t id recursive :
  firstWithId t id recursive
  = match scan (idMatch id) (html.Children t) 0 with
    | Some i => Some [i]
    | None =>
        if negb recursive then None
        else descend
               (fun c => if isElement c then firstWithId c id true else None)
               (html.Children t) 0
    end.
Proof. destruct t; reflexivity. Qed.

Lemma idMatch_true id c : idMatch id c = true <-> HasId id c.
Proof.
  unfold idMatch, HasId.
  rewrite andb_true_iff, isElement_true, String.eqb_eq. tauto.
Qed.

Lemma idMatch_false id c : idMatch id c = false <-> ~ HasId id c.
Proof.
  rewrite <- idMatch_true. destruct (idMatch id c); split; congruence.
Qed.

Lemma below_nonempty through t r c : below through t r c -> r <> [].
Proof. destruct 1; discriminate. Qed.

Lemma below_deref through t r c :
  below through t r c -> r <> [] /\ deref t r = Some c.
Proof.
  induction 1 as [t i c Hi|t i c r d Hi _ _ [_ IH]];
    (split; [discriminate|]); simpl; now rewrite Hi.
Qed.

(** Below a node of the parser's shape the scope of the recursive
    by-id search is everything below the node. *)
Lemma below_IsElement_all r : forall t c,
  parserShaped t ->
  (below IsElement t r c <-> r <> [] /\ deref t r = Some c).
Proof.
  induction r as [|i r IH]; intros t c Hshape.
  - split; [intros H; now apply below_nonempty in H | now intros [? _]].
  - split; [apply below_deref|]. intros [_ Hc]. simpl in Hc.
    destruct (html.Children t !! i) as [ci|] eqn:Hi; [|discriminate].
    destruct r as [|j r]; [injection Hc as <-; now constructor|].
    destruct Hshape as [t Hkinds Hsub].
    assert (Hin : ci ∈ html.Children t)
      by now apply list_elem_of_lookup_2 with i.
    destruct (Hkinds ci Hin) as [Hel|Hleaf].
    + apply below_deeper with ci; [assumption ..|].
      apply IH; [now apply Hsub | now split].
    + simpl in Hc. rewrite Hleaf in Hc. discriminate.
Qed.

(** What the search returns lies in its scope and has the id. *)
Lemma firstWithId_sound t : forall id recursive r,
  firstWithId t id recursive = Some r ->
  exists c, idScope recursive t r c /\ HasId id c.
Proof.
  induction t as [ty data attrs cs IH] using html.Node_ind.
  intros id recursive r. rewrite firstWithId_unfold. simpl.
  destruct (scan (idMatch id) cs 0) as [k|] eqn:Escan.
  - intros [= <-].
    apply scan_Some in Escan as (j & c & -> & Hj & Hc & _).
    exists c. split; [|now apply idMatch_true].
    destruct recursive; simpl.
    + now constructor.
    + now exists j.
  - destruct recursive; simpl; [|discriminate].
    intros Hd.
    apply descend_Some in Hd as (j & c & el & -> & Hj & Hf & _).
    destruct (isElement c) eqn:Eel; [|discriminate].
    rewrite Forall_lookup in IH.
    destruct (IH j c Hj id true el Hf) as (d & Hscope & Hd).
    exists d. split; [|exact Hd].
    apply below_deeper with c;
      [exact Hj | now apply isElement_true | exact Hscope].
Qed.

(** An element of the scope with the id makes the search succeed. *)
Lemma firstWithId_complete_shallow t id recursive i c :
  html.Children t !! i = Some c -> HasId id c ->
  is_Some (firstWithId t id recursive).
Proof.
  intros Hi Hc. rewrite firstWithId_unfold.
  destruct (scan (idMatch id) (html.Children t) 0) as [k|] eqn:Escan;
    [now eexists|].
  apply scan_None in Escan. rewrite Forall_lookup in Escan.
  apply idMatch_true in Hc. specialize (Escan i c Hi). congruence.
Qed.

Lemma firstWithId_complete_below t id r c :
  below IsElement t r c -> HasId id c -> is_Some (firstWithId t id true).
Proof.
  induction 1 as [t i c Hi|t i c r d Hi Hel _ IH]; intros Hd.
  - now apply firstWithId_complete_shallow with i c.
  - specialize (IH Hd). rewrite firstWithId_unfold.
    destruct (scan (idMatch id) (html.Children t) 0) as [k|];
      [now eexists|].
    simpl.
    destruct (descend _ (html.Children t) 0) as [el|] eqn:Ed;
      [now eexists|].
    apply descend_None in Ed. rewrite Forall_lookup in Ed.
    specialize (Ed i c Hi). simpl in Ed.
    rewrite (proj2 (isElement_true c) Hel) in Ed.
    rewrite Ed in IH. now destruct IH.
Qed.

Lemma firstWithId_complete t id recursive r c :
  idScope recursive t r c -> HasId id c ->
  is_Some (firstWithId t id recursive).
Proof.
  destruct recursive; simpl.
  - apply firstWithId_complete_below.
  - intros (i & _ & Hi). now apply firstWithId_complete_shallow with i.
Qed.

(** The search succeeds exactly when its scope holds an element with
    the id. *)
Lemma firstWithId_Some_iff t id recursive :
  is_Some (firstWithId t id recursive)
  <-> exists r c, idScope recursive t r c /\ HasId id c.
Proof.
  split.
  - intros [r Hr]. exists r. now apply firstWithId_sound.
  - intros (r & c & Hscope & Hc). now apply firstWithId_complete with r c.
Qed.

Lemma firstWithId_None_iff t id recursive :
  firstWithId t id recursive = None
  <-> forall r c, idScope recursive t r c -> ~ HasId id c.
Proof.
  rewrite eq_None_not_Some, firstWithId_Some_iff. firstorder.
Qed.

(** *** The search order *)

Lemma searchedBefore_antisym r : forall r',
  searchedBefore r r' -> searchedBefore r' r -> r = r'.
Proof.
  induction r as [|i [|k s] IH]; intros [|j [|k' s']]; simpl; try tauto.
  - intros. f_equal. lia.
  - intros [H|[-> H]] [H'|[E H']]; try lia.
    f_equal. now apply IH.
Qed.

(** Among the elements of the scope with the id, the one returned is
    the first in search order. *)
Lemma firstWithId_first t : forall id recursive r,
  firstWithId t id recursive = Some r ->
  forall r' c', idScope recursive t r' c' -> HasId id c' ->
    searchedBefore r r'.
Proof.
  induction t as [ty data attrs cs IH] using html.Node_ind.
  intros id recursive r. rewrite firstWithId_unfold. simpl.
  rewrite Forall_lookup in IH.
  destruct (scan (idMatch id) cs 0) as [k|] eqn:Escan.
  - intros [= <-] r' c' Hscope Hc'.
    apply scan_Some in Escan as (j & c & -> & Hj & Hc & Hmin). simpl.
    assert (Hshallow : forall i, cs !! i = Some c' -> j <= i).
    { intros i Hi. destruct (Nat.le_gt_cases j i) as [|Hlt]; [assumption|].
      apply idMatch_true in Hc'. specialize (Hmin i c' Hlt Hi). congruence. }
    destruct recursive; simpl in Hscope.
    + inversion Hscope as [? i ? Hi|? i c'' s d Hi Hel Hbelow]; subst.
      * now apply Hshallow.
      * apply below_nonempty in Hbelow. now destruct s.
    + destruct Hscope as (i & -> & Hi). now apply Hshallow.
  - destruct recursive; simpl; [|discriminate].
    intros Hd r' c' Hscope Hc'.
    apply scan_None in Escan. rewrite Forall_lookup in Escan.
    apply descend_Some in Hd as (j & c & el & -> & Hj & Hf & Hmin).
    destruct (isElement c) eqn:Eel; [|discriminate].
    assert (Hel : el <> []).
    { destruct (firstWithId_sound c id true el Hf) as (d & Hscope' & _).
      now apply below_nonempty in Hscope'. }
    inversion Hscope as [? i ? Hi|? i c'' s d Hi Hel'' Hbelow]; subst.
    + apply idMatch_true in Hc'. specialize (Escan i c' Hi). congruence.
    + assert (Hs : s <> []) by now apply below_nonempty in Hbelow.
      assert (Hle : j <= i).
      { destruct (Nat.le_gt_cases j i) as [|Hlt]; [assumption|].
        specialize (Hmin i c'' Hlt Hi). simpl in Hmin.
        rewrite (proj2 (isElement_true c'') Hel'') in Hmin.
        destruct (firstWithId_complete_below c'' id s c' Hbelow Hc')
          as [x Hx].
        congruence. }
      destruct el as [|e el]; [now contradict Hel|].
      destruct s as [|e' s]; [now contradict Hs|]. simpl in Hi |- *.
      destruct (Nat.eq_dec j i) as [->|Hne]; [right|left; lia].
      split; [reflexivity|].
      assert (c'' = c) as -> by congruence.
      exact (IH i c Hj id true (e :: el) Hf (e' :: s) c' Hbelow Hc').
Qed.

(** C3, as stated, fails: on [sampleDeep] the search returns the
    [id="x"] three levels down, although another one sits two levels
    down. *)
Lemma firstWithId_not_shallowest : ~ shallowestFirst sampleDeep "x".
Proof.
  intros H.
  specialize (H [0; 0; 0] eq_refl [1; 0] (element "u" [("id", "x")] [])).
  assert (Hscope : idScope true sampleDeep [1; 0]
                     (element "u" [("id", "x")] [])).
  { apply below_deeper with (element "c" [] [element "u" [("id", "x")] []]);
      [reflexivity | reflexivity | now constructor]. }
  specialize (H Hscope (conj eq_refl eq_refl)). simpl in H. lia.
Qed.

(** C3, amended: [firstWithId] returns a node exactly when its scope
    (the immediate children; in recursive mode also what is reached
    from them through elements) holds an element whose [id] reads the
    target; the node returned is such an element, and among several it
    is the first in search order: at each visited node a matching
    immediate child comes before any deeper match. *)
Theorem firstWithId_spec (t : html.Node) (id : string) (recursive : bool) :
  (is_Some (firstWithId t id recursive)
   <-> exists r c, idScope recursive t r c /\ HasId id c)
  /\ (forall r, firstWithId t id recursive = Some r ->
        (exists c, idScope recursive t r c /\ HasId id c)
        /\ (forall r' c', idScope recursive t r' c' -> HasId id c' ->
              searchedBefore r r')).
Proof.
  split; [apply firstWithId_Some_iff|].
  intros r Hr. split.
  - now apply firstWithId_sound.
  - now apply firstWithId_first.
Qed.

Lemma firstWithId_spec_witness :
  searchedBefore [0; 0; 0] [1; 0].
Proof.
  destruct (firstWithId_spec sampleDeep "x" true) as [_ H].
  destruct (H [0; 0; 0] eq_refl) as [_ Hfirst].
  apply (Hfirst [1; 0] (element "u" [("id", "x")] [])).
  - apply below_deeper with (element "c" [] [element "u" [("id", "x")] []]);
      [reflexivity | reflexivity | now constructor].
  - split; reflexivity.
Defined.

(** ** Dispatch on the id *)

Lemma SelectAll_by_id t s :
  (0 < len (Id s))%nat ->
  SelectAll t s
  = match firstWithId t (Id s) (Recursive s) with
    | None => Some [None]
    | Some _ => Some []
    end.
Proof.
  intros H. unfold SelectAll.
  rewrite (proj2 (Nat.ltb_lt _ _) H). simpl.
  now destruct (firstWithId t (Id s) (Recursive s)).
Qed.

(** C1 fails on the code: with a non-empty [Id] and a match in scope,
    [SelectAll] returns the empty slice; the element found is not in
    it.  Seen on [<div><span id="x">...] in both modes. *)
Theorem SelectAll_by_id_drops_match :
  firstWithId sampleDiv "x" false = Some [0]
  /\ (exists c, deref sampleDiv [0] = Some c /\ HasId "x" c)
  /\ SelectAll sampleDiv (mkSelector "x" "" "" false) = Some []
  /\ SelectAll sampleDiv (mkSelector "x" "" "" true) = Some []
  /\ SelectFirst sampleDiv (mkSelector "x" "" "" false) = Some [0].
Proof.
  repeat split.
  exists (element "span" [("id", "x")] [text "Hi"]).
  repeat split.
Qed.

(** ** The "all" traversals and pre-order *)

Lemma allWithClassName_unfold t className recursive :
  allWithClassName t className recursive
  = let res := if HasClass t className then [[]] else [] in
    if negb recursive then res
    else res ++ collect
                  (fun i c => map (cons i) (allWithClassName c className true))
                  (html.Children t) 0.
Proof. destruct t; reflexivity. Qed.

Lemma allWithTag_unfold t tagName recursive :
  allWithTag t tagName recursive
  = collect
      (fun i c =>
         (if tagMatch tagName c then [[i]] else [])
         ++ (if recursive then map (cons i) (allWithTag c tagName true)
             else []))
      (html.Children t) 0.
Proof. destruct t; reflexivity. Qed.

Lemma chunks_cons i c cs :
  chunks i (c :: cs) = map (cons i) (preorder c) ++ chunks (S i) cs.
Proof. reflexivity. Qed.

Lemma preorder_unfold t : preorder t = [] :: chunks 0 (html.Children t).
Proof. destruct t; reflexivity. Qed.

Lemma holdsAt_nil test t : holdsAt test t [] = test t.
Proof. reflexivity. Qed.

Lemma holdsAt_cons test t k r c :
  html.Children t !! k = Some c ->
  holdsAt test t (k :: r) = holdsAt test c r.
Proof. intros H. unfold holdsAt. simpl. now rewrite H. Qed.

Lemma filter_map_cons test t k c l :
  html.Children t !! k = Some c ->
  List.filter (holdsAt test t) (map (cons k) l)
  = map (cons k) (List.filter (holdsAt test c) l).
Proof.
  intros H. induction l as [|r l IH]; [reflexivity|]. simpl.
  rewrite (holdsAt_cons test t k r c H), IH.
  now destruct (holdsAt test c r).
Qed.

(** A loop that appends, for each child, the references below it that
    pass [test], lists in pre-order those of all children. *)
Lemma collect_filter_chunks test t f cs : forall i,
  (forall j c, cs !! j = Some c ->
     f (i + j) c
     = List.filter (holdsAt test t) (map (cons (i + j)) (preorder c))) ->
  collect f cs i = List.filter (holdsAt test t) (chunks i cs).
Proof.
  induction cs as [|c cs IH]; intros i Hf; [reflexivity|].
  rewrite chunks_cons, List.filter_app. simpl. f_equal.
  - specialize (Hf 0 c eq_refl). now rewrite Nat.add_0_r in Hf.
  - apply IH. intros j c' Hj. rewrite Nat.add_succ_comm. now apply Hf.
Qed.

(** The recursive by-class listing is the pre-order listing of the
    tree, the queried node included, cut down to the nodes with the
    class. *)
Lemma allWithClassName_preorder className t :
  allWithClassName t className true
  = List.filter (holdsAt (fun c => HasClass c className) t) (preorder t).
Proof.
  induction t as [ty data attrs cs IH] using html.Node_ind.
  rewrite allWithClassName_unfold, preorder_unfold. simpl.
  rewrite holdsAt_nil.
  set (t := mkNode ty data attrs cs).
  rewrite (collect_filter_chunks (fun c => HasClass c className) t).
  - now destruct (HasClass t className).
  - intros j c Hj. rewrite Forall_lookup in IH.
    rewrite (IH j c Hj). symmetry. now apply filter_map_cons.
Qed.

(** The recursive by-tag listing is the pre-order listing of what lies
    below the queried node, cut down to the elements with the tag. *)
Lemma allWithTag_preorder tagName t :
  allWithTag t tagName true
  = List.filter (holdsAt (tagMatch tagName) t) (tail (preorder t)).
Proof.
  induction t as [ty data attrs cs IH] using html.Node_ind.
  rewrite allWithTag_unfold, preorder_unfold. simpl.
  set (t := mkNode ty data attrs cs).
  apply collect_filter_chunks.
  intros j c Hj. rewrite Forall_lookup in IH.
  rewrite (IH j c Hj), preorder_unfold. simpl.
  rewrite (holdsAt_cons _ t j [] c Hj), holdsAt_nil.
  rewrite (filter_map_cons _ t j c _ Hj).
  now destruct (tagMatch tagName c).
Qed.

(** The shallow by-tag listing: the immediate children with the tag,
    in document order. *)
Lemma allWithTag_shallow tagName t :
  allWithTag t tagName false
  = List.filter (holdsAt (tagMatch tagName) t)
      (map (fun i => [i]) (seq 0 (length (html.Children t)))).
Proof.
  rewrite allWithTag_unfold.
  assert (H : forall cs i,
    (forall j c, cs !! j = Some c -> html.Children t !! (i + j) = Some c) ->
    collect (fun i c => (if tagMatch tagName c then [[i]] else []) ++ [])
      cs i
    = List.filter (holdsAt (tagMatch tagName) t)
        (map (fun i => [i]) (seq i (length cs)))).
  { induction cs as [|c cs IH]; intros i Hcs; [reflexivity|]. simpl.
    pose proof (Hcs 0 c eq_refl) as H0. rewrite Nat.add_0_r in H0.
    rewrite (holdsAt_cons _ t i [] c H0), holdsAt_nil, app_nil_r.
    rewrite IH.
    - now destruct (tagMatch tagName c).
    - intros j c' Hj. rewrite Nat.add_succ_comm. now apply Hcs. }
  now apply H.
Qed.

(** *** What pre-order is *)

Lemma elem_of_List_filter {A} (P : A -> bool) l x :
  x ∈ List.filter P l <-> x ∈ l /\ P x = true.
Proof. rewrite !list_elem_of_In. apply filter_In. Qed.

Lemma elem_of_map_cons (k : nat) (l : list ref) r :
  r ∈ map (cons k) l <-> exists r', r = k :: r' /\ r' ∈ l.
Proof.
  rewrite list_elem_of_In, in_map_iff. split.
  - intros (r' & <- & H). exists r'. now rewrite list_elem_of_In.
  - intros (r' & -> & H). exists r'. now rewrite <- list_elem_of_In.
Qed.

Lemma elem_of_chunks cs : forall i r,
  r ∈ chunks i cs
  <-> exists j c r', cs !! j = Some c /\ r = (i + j) :: r' /\ r' ∈ preorder c.
Proof.
  induction cs as [|c cs IH]; intros i r.
  - split; [intros H; inversion H | intros (j & c & r' & H & _); discriminate].
  - rewrite chunks_cons, elem_of_app, elem_of_map_cons, IH. split.
    + intros [(r' & -> & H)|(j & c' & r' & Hj & -> & H)].
      * exists 0, c, r'. now rewrite Nat.add_0_r.
      * exists (S j), c', r'. now rewrite <- Nat.add_succ_comm.
    + intros ([|j] & c' & r' & Hj & -> & H); simpl in Hj.
      * injection Hj as <-. left. exists r'. now rewrite Nat.add_0_r.
      * right. exists j, c', r'. now rewrite Nat.add_succ_comm.
Qed.

(** The pre-order listing holds exactly the references into the
    tree. *)
Lemma elem_of_preorder t : forall r,
  r ∈ preorder t <-> is_Some (deref t r).
Proof.
  induction t as [ty data attrs cs IH] using html.Node_ind.
  intros r. rewrite preorder_unfold, elem_of_cons, elem_of_chunks. simpl.
  rewrite Forall_lookup in IH. split.
  - intros [->|(j & c & r' & Hj & -> & H)]; [now eexists|].
    simpl. rewrite Hj. now apply IH with j.
  - destruct r as [|j r']; [now left|]. simpl.
    destruct (cs !! j) as [c|] eqn:Hj; [|now intros [? ?]].
    intros H. right. exists j, c, r'. repeat split; [|now apply (IH j)].
    assumption.
Qed.

Lemma root_not_in_chunks i cs : [] ∉ chunks i cs.
Proof.
  rewrite elem_of_chunks. intros (j & c & r' & _ & H & _). discriminate.
Qed.

Lemma StronglySorted_map_cons k l :
  StronglySorted docBefore l -> StronglySorted docBefore (map (cons k) l).
Proof.
  induction 1 as [|r l _ IH Hr]; simpl; constructor; [assumption|].
  rewrite List.Forall_forall in Hr |- *.
  intros r' Hr'. apply in_map_iff in Hr' as (s & <- & Hs).
  simpl. right. split; [reflexivity | now apply Hr].
Qed.

Lemma chunks_sorted cs : forall i,
  Forall (fun c => StronglySorted docBefore (preorder c)) cs ->
  StronglySorted docBefore (chunks i cs).
Proof.
  induction cs as [|c cs IH]; intros i Hcs; [constructor|].
  apply Forall_cons in Hcs as [Hc Hcs].
  rewrite chunks_cons. apply StronglySorted_app_2.
  - intros r1 r2 H1 H2.
    apply elem_of_map_cons in H1 as (s1 & -> & _).
    apply elem_of_chunks in H2 as (j & c' & s2 & _ & -> & _).
    simpl. left. lia.
  - now apply StronglySorted_map_cons.
  - now apply IH.
Qed.

(** The pre-order listing goes by document order: a node before what
    lies below it, the whole subtree of a child before the next
    sibling. *)
Lemma preorder_sorted t : StronglySorted docBefore (preorder t).
Proof.
  induction t as [ty data attrs cs IH] using html.Node_ind.
  rewrite preorder_unfold. simpl. constructor.
  - now apply chunks_sorted.
  - rewrite List.Forall_forall. intros r Hr.
    apply list_elem_of_In, elem_of_chunks in Hr as (j & c & r' & _ & -> & _).
    exact I.
Qed.

Lemma StronglySorted_List_filter {A} (R : A -> A -> Prop) (P : A -> bool) l :
  StronglySorted R l -> StronglySorted R (List.filter P l).
Proof.
  induction 1 as [|x l _ IH Hx]; simpl; [constructor|].
  destruct (P x); [|assumption]. constructor; [assumption|].
  rewrite List.Forall_forall in Hx |- *.
  intros y Hy. apply filter_In in Hy as [Hy _]. now apply Hx.
Qed.

Lemma tagMatch_true tagName c : tagMatch tagName c = true <-> HasTag tagName c.
Proof.
  unfold tagMatch, HasTag.
  rewrite andb_true_iff, isElement_true, String.eqb_eq. tauto.
Qed.

Lemma holdsAt_true test t r :
  holdsAt test t r = true <-> exists c, deref t r = Some c /\ test c = true.
Proof.
  unfold holdsAt. destruct (deref t r) as [c|].
  - split; [intros H; now exists c | now intros (c' & [= <-] & H)].
  - split; [discriminate | now intros (c' & [=] & _)].
Qed.

(** *** What the "all" traversals hold *)

Lemma elem_of_allWithClassName t className recursive r :
  r ∈ allWithClassName t className recursive
  <-> exists c, classScope recursive t r c /\ HasClass c className = true.
Proof.
  unfold classScope. destruct recursive.
  - rewrite allWithClassName_preorder, elem_of_List_filter, holdsAt_true.
    rewrite elem_of_preorder. split.
    + intros [_ (c & Hc & H)]. exists c. auto.
    + intros (c & [Hc _] & H). split; [now exists c | now exists c].
  - rewrite allWithClassName_unfold. simpl. split.
    + destruct (HasClass t className) eqn:E; [|intros H; inversion H].
      intros ->%list_elem_of_singleton. exists t. auto.
    + intros (c & [Hc [?| ->]] & Hcls); [discriminate|].
      injection Hc as <-. rewrite Hcls. now apply list_elem_of_singleton.
Qed.

Lemma elem_of_allWithTag t tagName recursive r :
  r ∈ allWithTag t tagName recursive
  <-> exists c, tagScope recursive t r c /\ HasTag tagName c.
Proof.
  unfold tagScope. destruct recursive.
  - rewrite allWithTag_preorder, elem_of_List_filter, holdsAt_true.
    rewrite preorder_unfold. simpl. split.
    + intros [Hr (c & Hc & H)]. exists c.
      split; [|now apply tagMatch_true].
      split; [|split; [assumption | now left]].
      intros ->. now apply root_not_in_chunks in Hr.
    + intros (c & (Hne & Hc & _) & H). split.
      * assert (Hin : r ∈ preorder t)
          by (apply elem_of_preorder; now exists c).
        rewrite preorder_unfold, elem_of_cons in Hin. tauto.
      * exists c. split; [assumption | now apply tagMatch_true].
  - rewrite allWithTag_shallow, elem_of_List_filter, holdsAt_true.
    rewrite list_elem_of_In, in_map_iff. split.
    + intros [(i & <- & _) (c & Hc & H)]. exists c.
      split; [|now apply tagMatch_true].
      split; [discriminate | split; [assumption | now right]].
    + intros (c & (Hne & Hc & [Hrec|Hlen]) & Htag); [discriminate|].
      destruct r as [|i [|? ?]]; try discriminate.
      split.
      * exists i. split; [reflexivity|]. apply in_seq. simpl in Hc.
        destruct (html.Children t !! i) eqn:Hi; [|discriminate].
        apply lookup_lt_Some in Hi. lia.
      * exists c. split; [assumption | now apply tagMatch_true].
Qed.

(** C7: the recursive by-tag listing never holds the queried node; it
    is the pre-order listing of what lies below, cut down to the
    elements with the tag.  The by-class listing holds the queried
    node when it has the class, before anything else; in recursive mode
    the matching nodes below follow in pre-order, each child's subtree
    before the next sibling. *)
Theorem all_traversals_root_and_order (t : html.Node) (name : string) :
  ([] ∉ AllWithTagR t name)
  /\ AllWithTagR t name
     = List.filter (holdsAt (tagMatch name) t) (tail (preorder t))
  /\ AllWithClassName t name = (if HasClass t name then [[]] else [])
  /\ AllWithClassNameR t name
     = (if HasClass t name then [[]] else [])
       ++ List.filter (holdsAt (fun c => HasClass c name) t)
            (tail (preorder t))
  /\ ([] ∉ tail (preorder t))
  /\ StronglySorted docBefore (AllWithTagR t name)
  /\ StronglySorted docBefore (AllWithClassNameR t name).
Proof.
  unfold AllWithTagR, AllWithClassName, AllWithClassNameR.
  assert (Htail : [] ∉ tail (preorder t)).
  { rewrite preorder_unfold. apply root_not_in_chunks. }
  repeat split.
  - rewrite allWithTag_preorder, elem_of_List_filter. tauto.
  - apply allWithTag_preorder.
  - now rewrite allWithClassName_unfold.
  - rewrite allWithClassName_preorder, preorder_unfold. simpl.
    rewrite holdsAt_nil. now destruct (HasClass t name).
  - exact Htail.
  - rewrite allWithTag_preorder. apply StronglySorted_List_filter.
    pose proof (preorder_sorted t) as H. rewrite preorder_unfold in H |- *.
    now apply StronglySorted_cons in H.
  - rewrite allWithClassName_preorder. apply StronglySorted_List_filter.
    apply preorder_sorted.
Qed.

(** ** Criterion dispatch *)

Lemma len_pos s : (0 <? len s)%nat = true <-> s <> "".
Proof.
  destruct s; simpl; split; intros H;
    [discriminate H | now contradict H | discriminate | reflexivity].
Qed.

Lemma allWithClassName_nil_iff t className recursive :
  allWithClassName t className recursive = []
  <-> forall r c, classScope recursive t r c -> HasClass c className = false.
Proof.
  split.
  - intros Hnil r c Hscope.
    destruct (HasClass c className) eqn:E; [|reflexivity].
    assert (Hin : r ∈ allWithClassName t className recursive)
      by (apply elem_of_allWithClassName; now exists c).
    rewrite Hnil in Hin. inversion Hin.
  - intros Hnone. apply elem_of_nil_inv. intros r Hin.
    apply elem_of_allWithClassName in Hin as (c & Hscope & Hc).
    specialize (Hnone r c Hscope). congruence.
Qed.

Lemma allWithTag_nil_iff t tagName recursive :
  allWithTag t tagName recursive = []
  <-> forall r c, tagScope recursive t r c -> ~ HasTag tagName c.
Proof.
  split.
  - intros Hnil r c Hscope Hc.
    assert (Hin : r ∈ allWithTag t tagName recursive)
      by (apply elem_of_allWithTag; now exists c).
    rewrite Hnil in Hin. inversion Hin.
  - intros Hnone. apply elem_of_nil_inv. intros r Hin.
    apply elem_of_allWithTag in Hin as (c & Hscope & Hc).
    now apply (Hnone r c).
Qed.

(** C2: with a non-empty [Id] and no element with that id in scope,
    [SelectAll] returns the one-element slice holding [nil]; for a
    class-name selector and for a tag selector with no match it returns
    an empty slice that is not [nil]. *)
Theorem SelectAll_no_match (t : html.Node) (s : Selector) :
  ((0 < len (Id s))%nat ->
   (forall r c, idScope (Recursive s) t r c -> ~ HasId (Id s) c) ->
   SelectAll t s = Some [None])
  /\ (len (Id s) = 0 -> (0 < len (ClassName s))%nat ->
      (forall r c, classScope (Recursive s) t r c ->
         HasClass c (ClassName s) = false) ->
      SelectAll t s = Some [])
  /\ (len (Id s) = 0 -> len (ClassName s) = 0 -> (0 < len (Tag s))%nat ->
      (forall r c, tagScope (Recursive s) t r c -> ~ HasTag (Tag s) c) ->
      SelectAll t s = Some []).
Proof.
  repeat split.
  - intros Hid Hnone. rewrite (SelectAll_by_id t s Hid).
    now rewrite (proj2 (firstWithId_None_iff _ _ _) Hnone).
  - intros Hid Hcls Hnone. unfold SelectAll. rewrite Hid. simpl.
    rewrite (proj2 (Nat.ltb_lt _ _) Hcls).
    now rewrite (proj2 (allWithClassName_nil_iff _ _ _) Hnone).
  - intros Hid Hcls Htag Hnone. unfold SelectAll. rewrite Hid, Hcls. simpl.
    rewrite (proj2 (Nat.ltb_lt _ _) Htag).
    now rewrite (proj2 (allWithTag_nil_iff _ _ _) Hnone).
Qed.

Lemma SelectAll_no_match_witness :
  SelectAll sampleDiv (mkSelector "y" "" "" true) = Some [None]
  /\ SelectAll sampleDiv (mkSelector "" "zz" "" true) = Some []
  /\ SelectAll sampleDiv (mkSelector "" "" "h1" true) = Some [].
Proof.
  split; [|split].
  - destruct (SelectAll_no_match sampleDiv (mkSelector "y" "" "" true))
      as (H & _ & _).
    apply H; [vm_compute; lia|].
    now apply firstWithId_None_iff.
  - destruct (SelectAll_no_match sampleDiv (mkSelector "" "zz" "" true))
      as (_ & H & _).
    apply H; [reflexivity | vm_compute; lia |].
    now apply allWithClassName_nil_iff.
  - destruct (SelectAll_no_match sampleDiv (mkSelector "" "" "h1" true))
      as (_ & _ & H).
    apply H; [reflexivity | reflexivity | vm_compute; lia |].
    now apply allWithTag_nil_iff.
Defined.

(** C8: [SelectFirst] and [SelectAll] look at [Id], then [ClassName],
    then [Tag]; the first of them that is not empty decides the
    traversal family and the later fields play no part; with all three
    empty both return [nil]. *)
Theorem Select_dispatch_precedence (t : html.Node) (s : Selector) :
  (Id s <> "" ->
     SelectFirst t s = firstWithId t (Id s) (Recursive s)
     /\ SelectAll t s
        = match firstWithId t (Id s) (Recursive s) with
          | None => Some [None]
          | Some _ => Some []
          end)
  /\ (Id s = "" -> ClassName s <> "" ->
     SelectFirst t s = firstWithClassName t (ClassName s) (Recursive s)
     /\ SelectAll t s
        = Some (map Some (allWithClassName t (ClassName s) (Recursive s))))
  /\ (Id s = "" -> ClassName s = "" -> Tag s <> "" ->
     SelectFirst t s = firstWithTag t (Tag s) (Recursive s)
     /\ SelectAll t s = Some (map Some (allWithTag t (Tag s) (Recursive s))))
  /\ (Id s = "" -> ClassName s = "" -> Tag s = "" ->
     SelectFirst t s = None /\ SelectAll t s = None).
Proof.
  unfold SelectFirst, SelectAll. repeat split.
  all: repeat match goal with
         | H : _ = "" |- _ => rewrite H; clear H
         | H : _ <> "" |- _ => apply len_pos in H; rewrite H; clear H
         | |- _ -> _ => intro
         end; simpl; try reflexivity.
  now destruct (firstWithId t (Id s) (Recursive s)).
Qed.

Lemma Select_dispatch_precedence_witness :
  SelectFirst sampleDiv (mkSelector "x" "c" "a" false) = Some [0]
  /\ SelectFirst sampleDiv (mkSelector "" "c" "span" false) = Some [1]
  /\ SelectAll sampleDiv (mkSelector "" "" "span" false) = Some [Some [0]]
  /\ SelectAll sampleDiv (mkSelector "" "" "" false) = None.
Proof.
  split; [|split; [|split]].
  - destruct (Select_dispatch_precedence sampleDiv
                (mkSelector "x" "c" "a" false)) as (H & _).
    destruct H as [H _]; [discriminate | exact H].
  - destruct (Select_dispatch_precedence sampleDiv
                (mkSelector "" "c" "span" false)) as (_ & H & _).
    destruct H as [H _]; [reflexivity | discriminate | exact H].
  - destruct (Select_dispatch_precedence sampleDiv
                (mkSelector "" "" "span" false)) as (_ & _ & H & _).
    destruct H as [_ H]; [reflexivity | reflexivity | discriminate | exact H].
  - destruct (Select_dispatch_precedence sampleDiv
                (mkSelector "" "" "" false)) as (_ & _ & _ & H).
    destruct H as [_ H]; [reflexivity | reflexivity | reflexivity | exact H].
Defined.

(** ** The pointer view refines the tree view *)

Lemma size_unfold t : size t = S (list_sum (map size (html.Children t))).
Proof. destruct t; reflexivity. Qed.

Lemma length_le_sum_size cs : length cs <= list_sum (map size cs).
Proof.
  induction cs as [|c cs IH]; simpl; [lia|].
  rewrite (size_unfold c). lia.
Qed.

Lemma elem_size_le_sum c cs : c ∈ cs -> size c <= list_sum (map size cs).
Proof.
  induction 1 as [c cs|c c' cs _ IH]; simpl; lia.
Qed.

Section Refinement.

Variable h : gmap Ptr.ptr Ptr.cell.

Lemma chain_head a t ts :
  Ptr.chain h (Some a) (t :: ts) ->
  exists n, h !! a = Some n /\ Ptr.repr h a t
            /\ Ptr.chain h (Ptr.NextSibling n) ts.
Proof.
  inversion 1; subst. exists n. split; [assumption|]. split; [|assumption].
  exists n. auto.
Qed.

Lemma repr_cell a t n :
  Ptr.repr h a t -> h !! a = Some n ->
  Ptr.Type_ n = html.Type_ t /\ Ptr.Data n = html.Data t
  /\ Ptr.Attr n = html.Attr t
  /\ Ptr.chain h (Ptr.FirstChild n) (html.Children t).
Proof.
  intros (n' & Hn' & Hty & Hd & Hat & Hkids) Hn.
  assert (n' = n) as -> by congruence. auto.
Qed.

Lemma load_Some a n : h !! a = Some n -> Ptr.load h (Some a) = Ptr.Done n.
Proof. intros H. unfold Ptr.load. now rewrite H. Qed.

(** The tests on a cell agree with the tests on the tree node. *)
Lemma isElement_cell a t n :
  Ptr.repr h a t -> h !! a = Some n -> Ptr.isElement n = isElement t.
Proof.
  intros Hr Hn. destruct (repr_cell a t n Hr Hn) as (Hty & _).
  unfold Ptr.isElement, isElement. now rewrite Hty.
Qed.

Lemma idMatch_cell id a t n :
  Ptr.repr h a t -> h !! a = Some n -> Ptr.idMatch id n = idMatch id t.
Proof.
  intros Hr Hn. destruct (repr_cell a t n Hr Hn) as (Hty & _ & Hat & _).
  unfold Ptr.idMatch, idMatch, Ptr.isElement, isElement, Attr.
  now rewrite Hty, Hat.
Qed.

Lemma tagMatch_cell tagName a t n :
  Ptr.repr h a t -> h !! a = Some n ->
  Ptr.tagMatch tagName n = tagMatch tagName t.
Proof.
  intros Hr Hn. destruct (repr_cell a t n Hr Hn) as (Hty & Hd & _).
  unfold Ptr.tagMatch, tagMatch, Ptr.isElement, isElement.
  now rewrite Hty, Hd.
Qed.

Lemma hasClass_cell className a t n :
  Ptr.repr h a t -> h !! a = Some n ->
  Ptr.hasClass className n = HasClass t className.
Proof.
  intros Hr Hn. destruct (repr_cell a t n Hr Hn) as (_ & _ & Hat & _).
  unfold Ptr.hasClass, HasClass. now rewrite Hat.
Qed.

(** A reference counted from a chain position leads to the same node
    when counted from the parent whose chain it is. *)
Lemma fromChain_leadsTo a n q r :
  h !! a = Some n ->
  Ptr.fromChain h (Ptr.FirstChild n) 0 q r -> Ptr.leadsTo h a q r.
Proof.
  intros Hn (j & el & cj & -> & Hj & Hq).
  unfold Ptr.leadsTo. simpl. now rewrite Hn, Hj.
Qed.

Lemma fromChain_next a n i q r :
  h !! a = Some n ->
  Ptr.fromChain h (Ptr.NextSibling n) (S i) q r ->
  Ptr.fromChain h (Some a) i q r.
Proof.
  intros Hn (j & el & cj & -> & Hj & Hq).
  exists (S j), el, cj. repeat split; [f_equal; lia | | assumption].
  simpl. now rewrite Hn.
Qed.

Lemma fromChain_here a i q el :
  Ptr.locate h a el = Some q -> Ptr.fromChain h (Some a) i q (i :: el).
Proof.
  intros Hq. exists 0, el, a. repeat split; [f_equal; lia | assumption].
Qed.

(** *** The three loops *)

Lemma scan_refines test_h test_t :
  (forall a n t, h !! a = Some n -> Ptr.repr h a t -> test_h n = test_t t) ->
  forall c ts, Ptr.chain h c ts ->
  forall fuel i, length ts <= fuel ->
  exists res,
    Ptr.scan h fuel test_h c = Ptr.Done res
    /\ option_Forall2 (fun q k => Ptr.fromChain h c i q [k])
         res (scan test_t ts i).
Proof.
  intros Hcompat c ts Hchain.
  induction Hchain as [|a n t ts Ha Hty Hd Hat Hkids _ Hnext IH];
    intros fuel i Hfuel.
  - exists None. split; [now destruct fuel | constructor].
  - destruct fuel as [|fuel]; simpl in Hfuel; [lia|].
    assert (Hrepr : Ptr.repr h a t) by (exists n; auto).
    simpl. rewrite Ha. simpl. rewrite (Hcompat a n t Ha Hrepr).
    destruct (test_t t).
    + exists (Some a). split; [reflexivity|]. constructor.
      now apply fromChain_here.
    + destruct (IH fuel (S i)) as (res & Hres & Hrel); [lia|].
      exists res. split; [exact Hres|].
      destruct Hrel; constructor. now apply fromChain_next with n.
Qed.

Lemma descend_refines f_h f_t c ts :
  Ptr.chain h c ts ->
  forall fuel i, length ts <= fuel ->
  (forall a n t, h !! a = Some n -> Ptr.repr h a t -> t ∈ ts ->
     exists res, f_h a n = Ptr.Done res
                 /\ option_Forall2 (Ptr.leadsTo h a) res (f_t t)) ->
  exists res,
    Ptr.descend h fuel f_h c = Ptr.Done res
    /\ option_Forall2 (Ptr.fromChain h c i) res (descend f_t ts i).
Proof.
  induction 1 as [|a n t ts Ha Hty Hd Hat Hkids _ Hnext IH];
    intros fuel i Hfuel Hf.
  - exists None. split; [now destruct fuel | constructor].
  - destruct fuel as [|fuel]; simpl in Hfuel; [lia|].
    assert (Hrepr : Ptr.repr h a t) by (exists n; auto).
    destruct (Hf a n t Ha Hrepr) as (el & Hel & Hrel); [now left|].
    simpl. rewrite Ha. simpl. rewrite Hel. simpl.
    destruct Hrel as [q r Hq|].
    + exists (Some q). split; [reflexivity|]. constructor.
      now apply fromChain_here.
    + destruct (IH fuel (S i)) as (res & Hres & Hrel); [lia| |].
      { intros a' n' t' Ha' Hr' Hin. apply Hf; [assumption ..|now right]. }
      exists res. split; [exact Hres|].
      destruct Hrel; constructor. now apply fromChain_next with n.
Qed.

Lemma collect_refines f_h f_t c ts :
  Ptr.chain h c ts ->
  forall fuel i, length ts <= fuel ->
  (forall a n t k, h !! a = Some n -> Ptr.repr h a t -> t ∈ ts ->
     exists res,
       f_h a n = Ptr.Done res
       /\ Forall2 (fun q r => exists el, r = k :: el
                                         /\ Ptr.locate h a el = Some q)
            res (f_t k t)) ->
  exists res,
    Ptr.collect h fuel f_h c = Ptr.Done res
    /\ Forall2 (Ptr.fromChain h c i) res (collect f_t ts i).
Proof.
  induction 1 as [|a n t ts Ha Hty Hd Hat Hkids _ Hnext IH];
    intros fuel i Hfuel Hf.
  - exists []. split; [now destruct fuel | constructor].
  - destruct fuel as [|fuel]; simpl in Hfuel; [lia|].
    assert (Hrepr : Ptr.repr h a t) by (exists n; auto).
    destruct (Hf a n t i Ha Hrepr) as (found & Hfound & Hrel); [now left|].
    destruct (IH fuel (S i)) as (rest & Hrest & Hrel'); [lia| |].
    { intros a' n' t' k Ha' Hr' Hin. apply Hf; [assumption ..|now right]. }
    exists (found ++ rest). split.
    + simpl. rewrite Ha. simpl. rewrite Hfound. simpl. now rewrite Hrest.
    + simpl. apply Forall2_app.
      * eapply Forall2_impl; [exact Hrel|].
        intros q r (el & -> & Hq). now apply fromChain_here.
      * eapply Forall2_impl; [exact Hrel'|].
        intros q r Hq. now apply fromChain_next with n.
Qed.

(** *** The traversals *)

(** The body shared by the three "first" searches, below the load of
    the queried node. *)
Lemma first_step a n cs fuel recursive test_h test_t f_h f_t :
  h !! a = Some n ->
  Ptr.chain h (Ptr.FirstChild n) cs ->
  length cs <= fuel ->
  (forall a' n' t', h !! a' = Some n' -> Ptr.repr h a' t' ->
     test_h n' = test_t t') ->
  (recursive = true ->
   forall a' n' t', h !! a' = Some n' -> Ptr.repr h a' t' -> t' ∈ cs ->
     exists res, f_h a' n' = Ptr.Done res
                 /\ option_Forall2 (Ptr.leadsTo h a') res (f_t t')) ->
  exists res,
    (c ← Ptr.scan h fuel test_h (Ptr.FirstChild n);
     match c with
     | Some _ => Ptr.Done c
     | None =>
         if negb recursive then Ptr.Done None
         else Ptr.descend h fuel f_h (Ptr.FirstChild n)
     end) = Ptr.Done res
    /\ option_Forall2 (Ptr.leadsTo h a) res
         (match scan test_t cs 0 with
          | Some i => Some [i]
          | None => if negb recursive then None else descend f_t cs 0
          end).
Proof.
  intros Hn Hkids Hfuel Htest Hf.
  destruct (scan_refines test_h test_t Htest _ _ Hkids fuel 0 Hfuel)
    as (c & Hc & Hrel).
  rewrite Hc. simpl. destruct Hrel as [q k Hq|].
  - exists (Some q). split; [reflexivity|]. constructor.
    now apply fromChain_leadsTo with n.
  - destruct recursive; simpl.
    + destruct (descend_refines f_h f_t _ _ Hkids fuel 0 Hfuel (Hf eq_refl))
        as (res & Hres & Hrel).
      exists res. split; [exact Hres|].
      destruct Hrel; constructor. now apply fromChain_leadsTo with n.
    + exists None. split; [reflexivity | constructor].
Qed.

Ltac enter_node t a fuel Hrepr Hfuel n Hn Hkids :=
  rewrite size_unfold in Hfuel;
  destruct fuel as [|fuel]; [lia|];
  pose proof Hrepr as (n & Hn & _ & _ & _ & Hkids);
  pose proof (length_le_sum_size (html.Children t)).

Lemma firstWithId_refines t : forall a fuel id recursive,
  Ptr.repr h a t -> size t <= fuel ->
  exists res,
    Ptr.firstWithId h fuel (Some a) id recursive = Ptr.Done res
    /\ option_Forall2 (Ptr.leadsTo h a) res (firstWithId t id recursive).
Proof.
  induction t as [ty data attrs cs IH] using html.Node_ind.
  intros a fuel id recursive Hrepr Hfuel.
  enter_node (mkNode ty data attrs cs) a fuel Hrepr Hfuel n Hn Hkids.
  rewrite firstWithId_unfold. simpl in *.
  rewrite Hn. simpl.
  apply first_step; [assumption | assumption | lia | |].
  - intros a' n' t' Hn' Hr'. now apply idMatch_cell with a'.
  - intros _ a' n' t' Hn' Hr' Hin.
    rewrite (isElement_cell a' t' n' Hr' Hn').
    destruct (isElement t').
    + rewrite List.Forall_forall in IH.
      apply IH; [now apply list_elem_of_In | assumption |].
      apply elem_size_le_sum in Hin. lia.
    + exists None. split; [reflexivity | constructor].
Qed.

Lemma firstWithClassName_refines t : forall a fuel className recursive,
  Ptr.repr h a t -> size t <= fuel ->
  exists res,
    Ptr.firstWithClassName h fuel (Some a) className recursive = Ptr.Done res
    /\ option_Forall2 (Ptr.leadsTo h a) res
         (firstWithClassName t className recursive).
Proof.
  induction t as [ty data attrs cs IH] using html.Node_ind.
  intros a fuel className recursive Hrepr Hfuel.
  enter_node (mkNode ty data attrs cs) a fuel Hrepr Hfuel n Hn Hkids.
  simpl in *. rewrite Hn. simpl.
  apply (first_step a n cs fuel recursive (Ptr.hasClass className)
           (fun c => HasClass c className));
    [assumption | assumption | lia | |].
  - intros a' n' t' Hn' Hr'. now apply hasClass_cell with a'.
  - intros _ a' n' t' Hn' Hr' Hin.
    rewrite List.Forall_forall in IH.
    apply IH; [now apply list_elem_of_In | assumption |].
    apply elem_size_le_sum in Hin. lia.
Qed.

Lemma firstWithTag_refines t : forall a fuel tagName recursive,
  Ptr.repr h a t -> size t <= fuel ->
  exists res,
    Ptr.firstWithTag h fuel (Some a) tagName recursive = Ptr.Done res
    /\ option_Forall2 (Ptr.leadsTo h a) res (firstWithTag t tagName recursive).
Proof.
  induction t as [ty data attrs cs IH] using html.Node_ind.
  intros a fuel tagName recursive Hrepr Hfuel.
  enter_node (mkNode ty data attrs cs) a fuel Hrepr Hfuel n Hn Hkids.
  simpl in *. rewrite Hn. simpl.
  apply (first_step a n cs fuel recursive (Ptr.tagMatch tagName)
           (tagMatch tagName));
    [assumption | assumption | lia | |].
  - intros a' n' t' Hn' Hr'. now apply tagMatch_cell with a'.
  - intros _ a' n' t' Hn' Hr' Hin.
    rewrite List.Forall_forall in IH.
    apply IH; [now apply list_elem_of_In | assumption |].
    apply elem_size_le_sum in Hin. lia.
Qed.

Lemma Forall2_map_cons a k res (l : list ref) :
  Forall2 (Ptr.leadsTo h a) res l ->
  Forall2 (fun q r => exists el, r = k :: el /\ Ptr.locate h a el = Some q)
    res (map (cons k) l).
Proof.
  induction 1 as [|q r res l Hq _ IH]; simpl; constructor; [|exact IH].
  now exists r.
Qed.

Lemma Forall2_fromChain_leadsTo a n res (l : list ref) :
  h !! a = Some n ->
  Forall2 (Ptr.fromChain h (Ptr.FirstChild n) 0) res l ->
  Forall2 (Ptr.leadsTo h a) res l.
Proof.
  intros Hn H. eapply Forall2_impl; [exact H|].
  intros q r Hq. now apply fromChain_leadsTo with n.
Qed.

Lemma allWithClassName_refines t : forall a fuel className recursive,
  Ptr.repr h a t -> size t <= fuel ->
  exists res,
    Ptr.allWithClassName h fuel (Some a) className recursive = Ptr.Done res
    /\ Forall2 (Ptr.leadsTo h a) res (allWithClassName t className recursive).
Proof.
  induction t as [ty data attrs cs IH] using html.Node_ind.
  intros a fuel className recursive Hrepr Hfuel.
  enter_node (mkNode ty data attrs cs) a fuel Hrepr Hfuel n Hn Hkids.
  rewrite allWithClassName_unfold. simpl in *. rewrite Hn. simpl.
  rewrite (hasClass_cell className a _ n Hrepr Hn).
  set (t := mkNode ty data attrs cs) in *.
  assert (Hroot : Forall2 (Ptr.leadsTo h a)
                    (if HasClass t className then [a] else [])
                    (if HasClass t className then [[]] else [])).
  { destruct (HasClass t className); repeat constructor. }
  destruct recursive; simpl; [|eauto].
  destruct (collect_refines
              (fun a' _ => Ptr.allWithClassName h fuel (Some a') className true)
              (fun i c => map (cons i) (allWithClassName c className true))
              _ _ Hkids fuel 0) as (below & Hbelow & Hrel); [lia| |].
  { intros a' n' t' k Hn' Hr' Hin.
    rewrite List.Forall_forall in IH.
    destruct (IH t' (proj1 (list_elem_of_In _ _) Hin) a' fuel className true
                Hr') as (res & Hres & Hrel).
    - apply elem_size_le_sum in Hin. lia.
    - exists res. split; [exact Hres | now apply Forall2_map_cons]. }
  rewrite Hbelow. simpl. eexists. split; [reflexivity|].
  apply Forall2_app; [exact Hroot|].
  now apply Forall2_fromChain_leadsTo with n.
Qed.

Lemma allWithTag_refines t : forall a fuel tagName recursive,
  Ptr.repr h a t -> size t <= fuel ->
  exists res,
    Ptr.allWithTag h fuel (Some a) tagName recursive = Ptr.Done res
    /\ Forall2 (Ptr.leadsTo h a) res (allWithTag t tagName recursive).
Proof.
  induction t as [ty data attrs cs IH] using html.Node_ind.
  intros a fuel tagName recursive Hrepr Hfuel.
  enter_node (mkNode ty data attrs cs) a fuel Hrepr Hfuel n Hn Hkids.
  rewrite allWithTag_unfold. simpl in *. rewrite Hn. simpl.
  match goal with
  | |- exists res, Ptr.collect h fuel ?f_h _ = _
                   /\ Forall2 _ res (collect ?f_t _ _) =>
      destruct (collect_refines f_h f_t _ _ Hkids fuel 0)
        as (res & Hres & Hrel); [lia| |]
  end.
  { intros a' n' t' k Hn' Hr' Hin. simpl.
    rewrite (tagMatch_cell tagName a' t' n' Hr' Hn').
    assert (Hhit : Forall2
                     (fun q r => exists el, r = k :: el
                                            /\ Ptr.locate h a' el = Some q)
                     (if tagMatch tagName t' then [a'] else [])
                     (if tagMatch tagName t' then [[k]] else [])).
    { destruct (tagMatch tagName t'); repeat constructor. now exists []. }
    destruct recursive.
    - rewrite List.Forall_forall in IH.
      destruct (IH t' (proj1 (list_elem_of_In _ _) Hin) a' fuel tagName true
                  Hr') as (below & Hbelow & Hrel).
      + apply elem_size_le_sum in Hin. lia.
      + rewrite Hbelow. simpl. eexists. split; [reflexivity|].
        apply Forall2_app; [exact Hhit | now apply Forall2_map_cons].
    - eexists. split; [reflexivity|]. now rewrite !app_nil_r. }
  exists res. split; [exact Hres|].
  now apply Forall2_fromChain_leadsTo with n.
Qed.

Lemma SelectFirst_refines t a fuel s :
  Ptr.repr h a t -> size t <= fuel ->
  exists res,
    Ptr.SelectFirst h fuel (Some a) s = Ptr.Done res
    /\ option_Forall2 (Ptr.leadsTo h a) res (SelectFirst t s).
Proof.
  intros Hrepr Hfuel. unfold Ptr.SelectFirst, SelectFirst.
  destruct (0 <? len (Id s))%nat; [now apply firstWithId_refines|].
  destruct (0 <? len (ClassName s))%nat;
    [now apply firstWithClassName_refines|].
  destruct (0 <? len (Tag s))%nat; [now apply firstWithTag_refines|].
  exists None. split; [reflexivity | constructor].
Qed.

Lemma Forall2_map_Some a res (l : list ref) :
  Forall2 (Ptr.leadsTo h a) res l ->
  Forall2 (option_Forall2 (Ptr.leadsTo h a)) (map Some res) (map Some l).
Proof. induction 1; simpl; repeat constructor; assumption. Qed.

Lemma SelectAll_refines t a fuel s :
  Ptr.repr h a t -> size t <= fuel ->
  exists res,
    Ptr.SelectAll h fuel (Some a) s = Ptr.Done res
    /\ option_Forall2 (Forall2 (option_Forall2 (Ptr.leadsTo h a)))
         res (SelectAll t s).
Proof.
  intros Hrepr Hfuel. unfold Ptr.SelectAll, SelectAll.
  destruct (0 <? len (Id s))%nat.
  { destruct (firstWithId_refines t a fuel (Id s) (Recursive s) Hrepr Hfuel)
      as (x & -> & Hrel).
    simpl. destruct Hrel; eexists; (split; [reflexivity|]);
      repeat constructor. }
  destruct (0 <? len (ClassName s))%nat.
  { destruct (allWithClassName_refines t a fuel (ClassName s) (Recursive s)
                Hrepr Hfuel) as (x & -> & Hrel).
    eexists. split; [reflexivity|]. constructor.
    now apply Forall2_map_Some. }
  destruct (0 <? len (Tag s))%nat.
  { destruct (allWithTag_refines t a fuel (Tag s) (Recursive s) Hrepr Hfuel)
      as (x & -> & Hrel).
    eexists. split; [reflexivity|]. constructor.
    now apply Forall2_map_Some. }
  exists None. split; [reflexivity | constructor].
Qed.

End Refinement.

(** On a store with a cycle the recursive search has no result,
    whatever the fuel. *)
Lemma cyclic_store_runs_out fuel :
  Ptr.firstWithId Ptr.cyclic fuel (Some 0) "x" true = Ptr.OutOfFuel.
Proof.
  induction fuel as [|[|fuel] IH]; [reflexivity | reflexivity |].
  assert (Hload : Ptr.load Ptr.cyclic (Some 0)
                  = Ptr.Done (Ptr.mkCell ElementNode "div" [] (Some 0) None))
    by reflexivity.
  assert (Hscan : Ptr.scan Ptr.cyclic (S fuel) (Ptr.idMatch "x") (Some 0)
                  = Ptr.Done None).
  { cbn [Ptr.scan]. rewrite Hload. now destruct fuel. }
  remember (S fuel) as f eqn:Ef.
  cbn [Ptr.firstWithId]. rewrite Hload.
  cbn [mbind Ptr.outcome_bind Ptr.FirstChild].
  rewrite Hscan. cbn [mbind Ptr.outcome_bind negb].
  rewrite Ef at 1. cbn [Ptr.descend]. rewrite Hload.
  cbn [mbind Ptr.outcome_bind]. 
  change (Ptr.isElement (Ptr.mkCell ElementNode "div" [] (Some 0) None))
    with true.
  cbn iota. unfold Ptr.ptr in *. now rewrite IH.
Qed.

(** C9: on a store that holds a finite tree below the queried node,
    every traversal and both dispatchers return, in shallow and in
    recursive mode, once the fuel reaches the number of nodes: no loop
    over a sibling chain and no recursive descent runs on. *)
Theorem traversals_terminate (h : gmap Ptr.ptr Ptr.cell) (a : Ptr.ptr)
  (t : html.Node) (fuel : nat) :
  Ptr.repr h a t -> size t <= fuel ->
  forall (name : string) (recursive : bool) (s : Selector),
    (exists r, Ptr.firstWithId h fuel (Some a) name recursive = Ptr.Done r)
    /\ (exists r,
          Ptr.firstWithClassName h fuel (Some a) name recursive = Ptr.Done r)
    /\ (exists r, Ptr.firstWithTag h fuel (Some a) name recursive = Ptr.Done r)
    /\ (exists r,
          Ptr.allWithClassName h fuel (Some a) name recursive = Ptr.Done r)
    /\ (exists r, Ptr.allWithTag h fuel (Some a) name recursive = Ptr.Done r)
    /\ (exists r, Ptr.SelectFirst h fuel (Some a) s = Ptr.Done r)
    /\ (exists r, Ptr.SelectAll h fuel (Some a) s = Ptr.Done r).
Proof.
  intros Hrepr Hfuel name recursive s.
  destruct (firstWithId_refines h t a fuel name recursive Hrepr Hfuel)
    as (r1 & H1 & _).
  destruct (firstWithClassName_refines h t a fuel name recursive Hrepr Hfuel)
    as (r2 & H2 & _).
  destruct (firstWithTag_refines h t a fuel name recursive Hrepr Hfuel)
    as (r3 & H3 & _).
  destruct (allWithClassName_refines h t a fuel name recursive Hrepr Hfuel)
    as (r4 & H4 & _).
  destruct (allWithTag_refines h t a fuel name recursive Hrepr Hfuel)
    as (r5 & H5 & _).
  destruct (SelectFirst_refines h t a fuel s Hrepr Hfuel) as (r6 & H6 & _).
  destruct (SelectAll_refines h t a fuel s Hrepr Hfuel) as (r7 & H7 & _).
  repeat split; eauto.
Qed.

Lemma sampleStore_repr : Ptr.repr Ptr.sampleStore 0 sampleStoreTree.
Proof.
  exists (Ptr.mkCell ElementNode "div" [] (Some 1) None).
  repeat split. simpl.
  apply Ptr.chain_cons
    with (n := Ptr.mkCell ElementNode "span" [mkAttribute "" "id" "x"]
                 None (Some 2)); try reflexivity; [constructor|].
  apply Ptr.chain_cons
    with (n := Ptr.mkCell ElementNode "a" [mkAttribute "" "class" "c"]
                 None None); try reflexivity; constructor.
Qed.

Lemma traversals_terminate_witness :
  (exists r, Ptr.firstWithId Ptr.sampleStore 3 (Some 0) "x" true = Ptr.Done r)
  /\ (exists r,
        Ptr.SelectAll Ptr.sampleStore 3 (Some 0) (mkSelector "" "c" "" true)
        = Ptr.Done r).
Proof.
  destruct (traversals_terminate Ptr.sampleStore 0 sampleStoreTree 3
              sampleStore_repr ltac:(vm_compute; lia)
              "x" true (mkSelector "" "c" "" true))
    as (H1 & _ & _ & _ & _ & _ & H7).
  exact (conj H1 H7).
Defined.

(** The two views on the sample: the pointer view returns the address
    [1], the tree view the reference [[0]], and that reference leads to
    that address. *)
Lemma sampleStore_firstWithId :
  Ptr.firstWithId Ptr.sampleStore 3 (Some 0) "x" true = Ptr.Done (Some 1)
  /\ firstWithId sampleStoreTree "x" true = Some [0]
  /\ Ptr.leadsTo Ptr.sampleStore 0 1 [0]
  /\ Ptr.allWithClassName Ptr.sampleStore 3 (Some 0) "c" true = Ptr.Done [2]
  /\ Ptr.SelectAll Ptr.sampleStore 3 (Some 0) (mkSelector "x" "" "" true)
     = Ptr.Done (Some [])
  /\ Ptr.firstWithId Ptr.sampleStore 3 None "x" true = Ptr.Panic.
Proof. repeat split. Qed.

(** * Further properties of the source *)

(** ** [Attr] and [HasClass] together *)

(** X1: [Attr] reads the value of the first entry with the key and is the
    empty string without one; so an empty result tells a missing
    attribute from an empty one no further. *)
Theorem Attr_first_entry_or_empty (n : html.Node) (key : string) :
  (forall v, FirstEntry (html.Attr n) key v -> Attr n key = v)
  /\ (NoEntry (html.Attr n) key -> Attr n key = "")
  /\ (Attr n key = ""
      <-> NoEntry (html.Attr n) key \/ FirstEntry (html.Attr n) key "").
Proof.
  unfold Attr. split; [|split].
  - intros v. apply attrLoop_FirstEntry.
  - apply attrLoop_NoEntry.
  - destruct (FirstEntry_or_NoEntry (html.Attr n) key) as [[v Hv]|Hno].
    + rewrite (attrLoop_FirstEntry _ _ _ Hv). split.
      * intros ->. now right.
      * intros [Hno|Hv'].
        -- now apply FirstEntry_NoEntry in Hv.
        -- apply attrLoop_FirstEntry in Hv, Hv'. congruence.
    + rewrite (attrLoop_NoEntry _ _ Hno). split; [now left | reflexivity].
Qed.

Lemma Attr_first_entry_or_empty_witness :
  Attr (element "a" [("href", "/p"); ("href", "/q")] []) "href" = "/p"
  /\ Attr (element "a" [("href", "/p")] []) "id" = "".
Proof.
  split.
  - destruct (Attr_first_entry_or_empty
                (element "a" [("href", "/p"); ("href", "/q")] []) "href")
      as (H & _ & _).
    apply H. exists [], (mkAttribute "" "href" "/p"),
               [mkAttribute "" "href" "/q"].
    repeat split. constructor.
  - destruct (Attr_first_entry_or_empty
                (element "a" [("href", "/p")] []) "id") as (_ & H & _).
    apply H. repeat constructor. discriminate.
Defined.

(** X2: For a class name that is not empty, [HasClass] is membership among
    the space-separated tokens of [Attr node "class"].  The empty class
    name is the exception: without a [class] attribute [Attr] gives the
    empty string, whose only token is empty, yet [HasClass] says no. *)
Theorem HasClass_tokens_of_Attr (n : html.Node) (c : string) :
  (c <> "" ->
   (HasClass n c = true <-> c ∈ strings.Split (Attr n "class") " "))
  /\ (NoEntry (html.Attr n) "class" ->
      "" ∈ strings.Split (Attr n "class") " " /\ HasClass n "" = false).
Proof.
  unfold HasClass, Attr. split.
  - intros Hc.
    destruct (FirstEntry_or_NoEntry (html.Attr n) "class") as [[v Hv]|Hno].
    + rewrite (hasClassLoop_FirstEntry _ _ _ Hv), classLoop_elem_of.
      now rewrite (attrLoop_FirstEntry _ _ _ Hv).
    + rewrite (hasClassLoop_NoEntry _ _ Hno), (attrLoop_NoEntry _ _ Hno).
      split; [discriminate|]. intros H%list_elem_of_singleton. congruence.
  - intros Hno.
    rewrite (hasClassLoop_NoEntry _ _ Hno), (attrLoop_NoEntry _ _ Hno).
    split; [now apply list_elem_of_singleton | reflexivity].
Qed.

Lemma HasClass_tokens_of_Attr_witness :
  (HasClass (element "p" [("class", "a b")] []) "b" = true
   <-> "b" ∈ strings.Split (Attr (element "p" [("class", "a b")] []) "class")
             " ")
  /\ HasClass (element "p" [] []) "" = false.
Proof.
  split.
  - destruct (HasClass_tokens_of_Attr (element "p" [("class", "a b")] []) "b")
      as [H _].
    apply H. discriminate.
  - destruct (HasClass_tokens_of_Attr (element "p" [] []) "") as [_ H].
    apply H. constructor.
Defined.

Lemma elem_of_freeOf sep (toks : list string) c :
  Forall (freeOf sep) toks -> c ∈ toks -> freeOf sep c.
Proof. rewrite Forall_forall. auto. Qed.

(** X3: A class name that holds a space is never found, whatever the
    [class] attribute says: the tokens are cut at every space. *)
Theorem HasClass_name_without_space (n : html.Node) (c : string) :
  HasClass n c = true -> freeOf " " c.
Proof.
  unfold HasClass.
  destruct (FirstEntry_or_NoEntry (html.Attr n) "class") as [[v Hv]|Hno].
  - rewrite (hasClassLoop_FirstEntry _ _ _ Hv), classLoop_elem_of.
    apply elem_of_freeOf, Split_freeOf.
  - now rewrite (hasClassLoop_NoEntry _ _ Hno).
Qed.

Lemma HasClass_name_without_space_witness : freeOf " " "b".
Proof.
  apply (HasClass_name_without_space (element "p" [("class", "a b")] []) "b").
  reflexivity.
Defined.

(** ** [TextContent] *)

Lemma inCutset_child_in_self c :
  strings.inCutset c cutsetChild = true -> strings.inCutset c cutsetSelf = true.
Proof.
  unfold cutsetChild, cutsetSelf. simpl.
  destruct (Ascii.eqb c " "), (Ascii.eqb c "009"), (Ascii.eqb c "010");
    simpl; auto; discriminate.
Qed.

Lemma allIn_child_self s : allIn cutsetChild s -> allIn cutsetSelf s.
Proof.
  induction s as [|c s IH]; [trivial|].
  intros [Hc Hs]. split; [now apply inCutset_child_in_self | now apply IH].
Qed.

Lemma trimmed_self_child t : trimmed cutsetSelf t -> trimmed cutsetChild t.
Proof.
  intros [Hfirst Hlast]. split.
  - intros c t' Ht. specialize (Hfirst c t' Ht).
    destruct (strings.inCutset c cutsetChild) eqn:E; [|reflexivity].
    apply inCutset_child_in_self in E. congruence.
  - intros t' c Ht. specialize (Hlast t' c Ht).
    destruct (strings.inCutset c cutsetChild) eqn:E; [|reflexivity].
    apply inCutset_child_in_self in E. congruence.
Qed.

Lemma trimmed_empty cutset : trimmed cutset "".
Proof.
  split; [discriminate|]. intros [|d t'] c H; discriminate.
Qed.

(** What the loop over the children gives: nothing when no child is a
    text node, else the trimmed data of the first one. *)
Lemma textLoop_first cs :
  (Forall (fun b => html.Type_ b <> TextNode) cs /\ textLoop cs = "")
  \/ exists pre c post,
       cs = pre ++ c :: post
       /\ Forall (fun b => html.Type_ b <> TextNode) pre
       /\ html.Type_ c = TextNode
       /\ textLoop cs = strings.Trim (html.Data c) cutsetChild.
Proof.
  induction cs as [|b cs IH]; [left; split; [constructor | reflexivity]|].
  simpl. destruct (isText b) eqn:Eb.
  - right. exists [], b, cs.
    repeat split; [constructor | now apply isText_true].
  - assert (Hb : html.Type_ b <> TextNode).
    { intros H. apply isText_true in H. congruence. }
    destruct IH as [[Hnone Hloop]|(pre & c & post & -> & Hpre & Hc & Hloop)].
    + left. split; [now constructor | assumption].
    + right. exists (b :: pre), c, post.
      repeat split; [now constructor | assumption ..].
Qed.

(** X4: The result of [TextContent] is a piece of the data of the node
    itself or of one of its text children, with only whitespace cut off
    on both sides, or it is empty; it never starts or ends with a
    space, a tab or a newline. *)
Theorem TextContent_is_trimmed_data (n : html.Node) :
  trimmed cutsetChild (TextContent n)
  /\ (TextContent n = ""
      \/ exists d l r,
           (d = html.Data n
            \/ exists c, c ∈ html.Children n /\ html.Type_ c = TextNode
                         /\ d = html.Data c)
           /\ d = (l ++ TextContent n ++ r)%string
           /\ allIn cutsetSelf l /\ allIn cutsetSelf r).
Proof.
  unfold TextContent. destruct (isText n) eqn:En.
  - destruct (Trim_spec (html.Data n) cutsetSelf)
      as (l & r & Hd & Hl & Hr & Ht).
    split; [now apply trimmed_self_child|].
    right. exists (html.Data n), l, r. auto.
  - destruct (textLoop_first (html.Children n))
      as [[_ ->]|(pre & c & post & Hcs & _ & Hc & ->)].
    + split; [apply trimmed_empty | now left].
    + destruct (Trim_spec (html.Data c) cutsetChild)
        as (l & r & Hd & Hl & Hr & Ht).
      split; [assumption|].
      right. exists (html.Data c), l, r.
      repeat split; [|assumption|now apply allIn_child_self ..].
      right. exists c. repeat split; [|assumption].
      rewrite Hcs. apply elem_of_app. right. now left.
Qed.

(** X5: On a node that is not a text node, [TextContent] is decided by the
    first text child alone: what comes before it, what comes after it
    and what lies inside the other children plays no part; without a
    text child the result is empty, whatever text the children hold
    further down. *)
Theorem TextContent_first_text_child (n : html.Node) :
  html.Type_ n <> TextNode ->
  (forall pre c post,
     html.Children n = pre ++ c :: post ->
     Forall (fun b => html.Type_ b <> TextNode) pre ->
     html.Type_ c = TextNode ->
     TextContent n = strings.Trim (html.Data c) cutsetChild)
  /\ (Forall (fun b => html.Type_ b <> TextNode) (html.Children n) ->
      TextContent n = "").
Proof.
  intros Hn. split; [|now apply TextContent_no_text_child].
  intros pre c post Hcs Hpre Hc. unfold TextContent.
  destruct (isText n) eqn:En; [now apply isText_true in En|].
  rewrite Hcs. clear Hcs En.
  induction Hpre as [|b pre Hb _ IH]; simpl.
  - now rewrite (proj2 (isText_true c) Hc).
  - destruct (isText b) eqn:Eb; [now apply isText_true in Eb | exact IH].
Qed.

Lemma TextContent_first_text_child_witness :
  TextContent sampleMixed = strings.Trim "Hi" cutsetChild
  /\ TextContent sampleDiv = "".
Proof.
  split.
  - destruct (TextContent_first_text_child sampleMixed) as [H _];
      [discriminate|].
    apply (H [element "b" [] []] (text "Hi") []); [reflexivity | |reflexivity].
    repeat constructor. discriminate.
  - destruct (TextContent_first_text_child sampleDiv) as [_ H];
      [discriminate|].
    apply H. repeat constructor; discriminate.
Defined.

(** ** The "first" searches by class and by tag *)

Lemma firstWithClassName_unfold t className recursive :
  firstWithClassName t className recursive
  = match scan (fun c => HasClass c className) (html.Children t) 0 with
    | Some i => Some [i]
    | None =>
        if negb recursive then None
        else descend (fun c => firstWithClassName c className true)
               (html.Children t) 0
    end.
Proof. destruct t; reflexivity. Qed.

Lemma firstWithTag_unfold t tagName recursive :
  firstWithTag t tagName recursive
  = match scan (tagMatch tagName) (html.Children t) 0 with
    | Some i => Some [i]
    | None =>
        if negb recursive then None
        else descend (fun c => firstWithTag c tagName true)
               (html.Children t) 0
    end.
Proof. destruct t; reflexivity. Qed.

(** The two searches have one shape: a scan of the children with a
    test, then the same search below every child in turn. *)
Section FirstSearch.

Variable test : html.Node -> bool.
Variable F : html.Node -> bool -> option ref.
Hypothesis F_unfold : forall t recursive,
  F t recursive
  = match scan test (html.Children t) 0 with
    | Some i => Some [i]
    | None =>
        if negb recursive then None
        else descend (fun c => F c true) (html.Children t) 0
    end.

Lemma first_sound t : forall recursive r,
  F t recursive = Some r ->
  exists c, tagScope recursive t r c /\ test c = true.
Proof.
  induction t as [ty data attrs cs IH] using html.Node_ind.
  intros recursive r. rewrite F_unfold. simpl.
  destruct (scan test cs 0) as [k|] eqn:Escan.
  - intros [= <-].
    apply scan_Some in Escan as (j & c & -> & Hj & Hc & _).
    exists c. split; [|assumption].
    split; [discriminate|]. split; [simpl; now rewrite Hj | now right].
  - destruct recursive; simpl; [|discriminate].
    intros Hd.
    apply descend_Some in Hd as (j & c & el & -> & Hj & Hf & _).
    rewrite Forall_lookup in IH.
    destruct (IH j c Hj true el Hf) as (d & (_ & Hd & _) & Htest).
    exists d. split; [|assumption].
    split; [discriminate|]. split; [simpl; now rewrite Hj | now left].
Qed.

Lemma first_complete r : forall t recursive c,
  tagScope recursive t r c -> test c = true -> is_Some (F t recursive).
Proof.
  induction r as [|i r IH]; intros t recursive c (Hne & Hc & Hmode) Htest;
    [now contradict Hne|].
  simpl in Hc.
  destruct (html.Children t !! i) as [ci|] eqn:Hi; [|discriminate].
  rewrite F_unfold.
  destruct (scan test (html.Children t) 0) as [k|] eqn:Escan; [now eexists|].
  apply scan_None in Escan. rewrite Forall_lookup in Escan.
  destruct r as [|j r].
  - injection Hc as <-. specialize (Escan i ci Hi). congruence.
  - destruct Hmode as [->|Hlen]; [|discriminate]. simpl.
    destruct (descend _ (html.Children t) 0) as [el|] eqn:Ed; [now eexists|].
    apply descend_None in Ed. rewrite Forall_lookup in Ed.
    specialize (Ed i ci Hi). simpl in Ed.
    destruct (IH ci true c) as [x Hx]; [|assumption|congruence].
    split; [discriminate|]. split; [assumption | now left].
Qed.

Lemma first_order t : forall recursive r,
  F t recursive = Some r ->
  forall r' c', tagScope recursive t r' c' -> test c' = true ->
    searchedBefore r r'.
Proof.
  induction t as [ty data attrs cs IH] using html.Node_ind.
  intros recursive r. rewrite F_unfold. simpl.
  rewrite Forall_lookup in IH.
  intros HF [|i s] c' (Hne & Hc' & Hmode) Htest; [now contradict Hne|].
  simpl in Hc'.
  destruct (cs !! i) as [ci|] eqn:Hi; [|discriminate].
  destruct (scan test cs 0) as [k|] eqn:Escan.
  - injection HF as <-.
    apply scan_Some in Escan as (j & c & -> & Hj & Hc & Hmin). simpl.
    destruct s as [|e s]; [|exact I].
    injection Hc' as <-.
    destruct (Nat.le_gt_cases j i) as [|Hlt]; [assumption|].
    specialize (Hmin i ci Hlt Hi). congruence.
  - apply scan_None in Escan. rewrite Forall_lookup in Escan.
    destruct recursive; simpl in HF; [|discriminate].
    apply descend_Some in HF as (j & c & el & -> & Hj & Hf & Hmin).
    destruct s as [|e s].
    { injection Hc' as <-. specialize (Escan i ci Hi). congruence. }
    assert (Hscope : tagScope true ci (e :: s) c').
    { split; [discriminate|]. split; [assumption | now left]. }
    assert (Hle : j <= i).
    { destruct (Nat.le_gt_cases j i) as [|Hlt]; [assumption|].
      specialize (Hmin i ci Hlt Hi).
      destruct (first_complete (e :: s) ci true c' Hscope Htest) as [x Hx].
      congruence. }
    destruct (first_sound c true el Hf) as (d & (Hel & _) & _).
    destruct el as [|e' el]; [now contradict Hel|]. simpl.
    destruct (Nat.eq_dec j i) as [->|Hneq]; [right|left; lia].
    split; [reflexivity|].
    assert (ci = c) as -> by congruence.
    exact (IH i c Hj true (e' :: el) Hf (e :: s) c' Hscope Htest).
Qed.

Lemma first_None_iff t recursive :
  F t recursive = None
  <-> forall r c, tagScope recursive t r c -> test c = false.
Proof.
  split.
  - intros Hnone r c Hscope. destruct (test c) eqn:E; [|reflexivity].
    destruct (first_complete r t recursive c Hscope E) as [x Hx]. congruence.
  - intros Hnone. destruct (F t recursive) as [r|] eqn:E; [|reflexivity].
    destruct (first_sound t recursive r E) as (c & Hscope & Hc).
    specialize (Hnone r c Hscope). congruence.
Qed.

End FirstSearch.

(** X6: [firstWithClassName] returns a node exactly when a node below the
    queried one (an immediate child; in recursive mode any node below,
    whatever the kinds of the nodes on the way) has the class.  The
    node returned is one of them, never the queried node itself, and it
    is the first in search order: at each visited node a matching
    immediate child comes before any deeper match. *)
Theorem firstWithClassName_spec (t : html.Node) (className : string)
  (recursive : bool) :
  (is_Some (firstWithClassName t className recursive)
   <-> exists r c, tagScope recursive t r c /\ HasClass c className = true)
  /\ (forall r, firstWithClassName t className recursive = Some r ->
        (exists c, tagScope recursive t r c /\ HasClass c className = true)
        /\ (forall r' c', tagScope recursive t r' c' ->
              HasClass c' className = true -> searchedBefore r r')).
Proof.
  pose proof (fun t r => firstWithClassName_unfold t className r) as Hunf.
  split; [split|].
  - intros [r Hr]. exists r.
    exact (first_sound _ _ Hunf t recursive r Hr).
  - intros (r & c & Hscope & Hc).
    exact (first_complete _ _ Hunf r t recursive c Hscope Hc).
  - intros r Hr. split.
    + exact (first_sound _ _ Hunf t recursive r Hr).
    + exact (first_order _ _ Hunf t recursive r Hr).
Qed.

Lemma firstWithClassName_spec_witness :
  searchedBefore [1] [1].
Proof.
  destruct (firstWithClassName_spec sampleDiv "c" true) as [_ H].
  destruct (H [1] eq_refl) as [_ Hfirst].
  apply (Hfirst [1]
           (element "a" [("class", "c"); ("href", "/p")] [text "Go"])).
  - split; [discriminate|]. split; [reflexivity | now left].
  - reflexivity.
Defined.

(** X7: [firstWithTag] returns a node exactly when an element below the
    queried one (an immediate child; in recursive mode any node below,
    also one that hangs below a node that is no element) has the tag.
    The node returned is such an element and the first in search
    order. *)
Theorem firstWithTag_spec (t : html.Node) (tagName : string)
  (recursive : bool) :
  (is_Some (firstWithTag t tagName recursive)
   <-> exists r c, tagScope recursive t r c /\ HasTag tagName c)
  /\ (forall r, firstWithTag t tagName recursive = Some r ->
        (exists c, tagScope recursive t r c /\ HasTag tagName c)
        /\ (forall r' c', tagScope recursive t r' c' -> HasTag tagName c' ->
              searchedBefore r r')).
Proof.
  pose proof (fun t r => firstWithTag_unfold t tagName r) as Hunf.
  split; [split|].
  - intros [r Hr]. exists r.
    destruct (first_sound _ _ Hunf t recursive r Hr) as (c & Hscope & Hc).
    exists c. split; [assumption | now apply tagMatch_true].
  - intros (r & c & Hscope & Hc). apply tagMatch_true in Hc.
    exact (first_complete _ _ Hunf r t recursive c Hscope Hc).
  - intros r Hr. split.
    + destruct (first_sound _ _ Hunf t recursive r Hr) as (c & Hscope & Hc).
      exists c. split; [assumption | now apply tagMatch_true].
    + intros r' c' Hscope Hc'. apply tagMatch_true in Hc'.
      exact (first_order _ _ Hunf t recursive r Hr r' c' Hscope Hc').
Qed.

Lemma firstWithTag_spec_witness :
  exists c, tagScope false sampleDiv [1] c /\ HasTag "a" c.
Proof.
  destruct (firstWithTag_spec sampleDiv "a" false) as [_ H].
  exact (proj1 (H [1] eq_refl)).
Defined.

(** ** "First" against "all" *)

Lemma scan_head_collect test cs : forall i,
  (fun k => [k]) <$> scan test cs i
  = head (collect (fun i c => (if test c then [[i]] else []) ++ []) cs i).
Proof.
  induction cs as [|c cs IH]; intros i; [reflexivity|]. simpl.
  destruct (test c); [reflexivity|]. apply IH.
Qed.

(** X8: By tag the two families agree: the search finds nothing exactly
    when the listing is empty, what it finds is in the listing, and in
    shallow mode it is the head of the listing. *)
Theorem firstWithTag_in_allWithTag (t : html.Node) (tagName : string)
  (recursive : bool) :
  (firstWithTag t tagName recursive = None
   <-> allWithTag t tagName recursive = [])
  /\ (forall r, firstWithTag t tagName recursive = Some r ->
        r ∈ allWithTag t tagName recursive)
  /\ FirstWithTag t tagName = head (AllWithTag t tagName).
Proof.
  pose proof (fun t r => firstWithTag_unfold t tagName r) as Hunf.
  split; [|split].
  - rewrite (first_None_iff _ _ Hunf), allWithTag_nil_iff.
    split; intros H r c Hscope.
    + rewrite <- tagMatch_true, (H r c Hscope). discriminate.
    + specialize (H r c Hscope). rewrite <- tagMatch_true in H.
      now destruct (tagMatch tagName c).
  - intros r Hr. apply elem_of_allWithTag.
    destruct (first_sound _ _ Hunf t recursive r Hr) as (c & Hscope & Hc).
    exists c. split; [assumption | now apply tagMatch_true].
  - unfold FirstWithTag, AllWithTag.
    rewrite firstWithTag_unfold, allWithTag_unfold. simpl.
    rewrite <- scan_head_collect.
    now destruct (scan (tagMatch tagName) (html.Children t) 0).
Qed.

Lemma firstWithTag_in_allWithTag_witness :
  [0; 0; 0] ∈ allWithTag sampleDeep "i" true.
Proof.
  destruct (firstWithTag_in_allWithTag sampleDeep "i" true) as (_ & H & _).
  apply H. reflexivity.
Defined.

(** X9: By class the two families differ in shallow mode: the listing
    looks at the queried node alone and the search at its children
    alone, so what [FirstWithClassName] finds is never in what
    [AllWithClassName] lists.  In recursive mode what the search finds
    is in the listing, and the search finds nothing exactly when the
    listing holds at most the queried node. *)
Theorem firstWithClassName_against_allWithClassName (t : html.Node)
  (className : string) :
  (forall r, r ∈ AllWithClassName t className -> r = [])
  /\ (forall r, FirstWithClassName t className = Some r ->
        r ∉ AllWithClassName t className)
  /\ (forall r, FirstWithClassNameR t className = Some r ->
        r ∈ AllWithClassNameR t className)
  /\ (FirstWithClassNameR t className = None
      <-> forall r, r ∈ AllWithClassNameR t className -> r = []).
Proof.
  pose proof (fun t r => firstWithClassName_unfold t className r) as Hunf.
  unfold AllWithClassName, AllWithClassNameR, FirstWithClassName,
    FirstWithClassNameR.
  assert (Hroot : forall r, r ∈ allWithClassName t className false -> r = []).
  { intros r Hr. apply elem_of_allWithClassName in Hr as (c & [_ Hr] & _).
    now destruct Hr. }
  split; [exact Hroot|]. split; [|split].
  - intros r Hr Hin. apply Hroot in Hin. subst r.
    destruct (first_sound _ _ Hunf t false [] Hr) as (c & (Hne & _) & _).
    now contradict Hne.
  - intros r Hr. apply elem_of_allWithClassName.
    destruct (first_sound _ _ Hunf t true r Hr) as (c & (_ & Hc & _) & Hcls).
    exists c. split; [split; [assumption | now left] | assumption].
  - rewrite (first_None_iff _ _ Hunf). split.
    + intros Hnone r Hr.
      apply elem_of_allWithClassName in Hr as (c & [Hc _] & Hcls).
      destruct r as [|i r]; [reflexivity|].
      assert (Hscope : tagScope true t (i :: r) c).
      { split; [discriminate|]. split; [assumption | now left]. }
      specialize (Hnone _ _ Hscope). congruence.
    + intros Honly r c (Hne & Hc & _).
      destruct (HasClass c className) eqn:E; [|reflexivity].
      contradict Hne. apply Honly, elem_of_allWithClassName.
      exists c. split; [split; [assumption | now left] | assumption].
Qed.

Lemma firstWithClassName_against_allWithClassName_witness :
  ([1] ∉ AllWithClassName sampleDiv "c")
  /\ [1] ∈ AllWithClassNameR sampleDiv "c".
Proof.
  destruct (firstWithClassName_against_allWithClassName sampleDiv "c")
    as (_ & H2 & H3 & _).
  split; [apply H2 | apply H3]; reflexivity.
Defined.

(** ** The listings hold each node once *)

Lemma docBefore_irrefl r : ~ docBefore r r.
Proof.
  induction r as [|i r IH]; simpl; [tauto|].
  intros [H|[_ H]]; [lia | tauto].
Qed.

Lemma StronglySorted_docBefore_NoDup l :
  StronglySorted docBefore l -> NoDup l.
Proof.
  induction 1 as [|r l _ IH Hr]; constructor; [|assumption].
  intros Hin. rewrite List.Forall_forall in Hr.
  apply list_elem_of_In, Hr in Hin. now apply docBefore_irrefl in Hin.
Qed.

Lemma children_refs_sorted n : forall i,
  StronglySorted docBefore (map (fun k => [k]) (seq i n)).
Proof.
  induction n as [|n IH]; intros i; simpl; constructor; [apply IH|].
  rewrite List.Forall_forall. intros r Hr.
  apply in_map_iff in Hr as (k & <- & Hk). apply in_seq in Hk.
  simpl. left. lia.
Qed.

(** X10: The shallow by-tag listing holds exactly the immediate element
    children with the tag, in document order. *)
Theorem AllWithTag_children (t : html.Node) (tagName : string) :
  AllWithTag t tagName
  = List.filter (holdsAt (tagMatch tagName) t)
      (map (fun i => [i]) (seq 0 (length (html.Children t))))
  /\ (forall r, r ∈ AllWithTag t tagName
        <-> exists i c, r = [i] /\ html.Children t !! i = Some c
                        /\ HasTag tagName c)
  /\ StronglySorted docBefore (AllWithTag t tagName).
Proof.
  unfold AllWithTag. split; [apply allWithTag_shallow|]. split.
  - intros r. rewrite elem_of_allWithTag. split.
    + intros (c & (Hne & Hc & [?|Hlen]) & Htag); [discriminate|].
      destruct r as [|i [|? ?]]; try discriminate.
      exists i, c. repeat split; [|apply Htag ..]. simpl in Hc.
      now destruct (html.Children t !! i).
    + intros (i & c & -> & Hi & Htag). exists c.
      split; [|assumption].
      split; [discriminate|]. split; [simpl; now rewrite Hi | now right].
  - rewrite allWithTag_shallow. apply StronglySorted_List_filter.
    apply children_refs_sorted.
Qed.

(** X11: No listing holds a node twice, in either mode, and every reference
    listed leads to a node of the tree that passes the test of the
    listing. *)
Theorem listings_distinct_and_valid (t : html.Node) (name : string)
  (recursive : bool) :
  NoDup (allWithTag t name recursive)
  /\ NoDup (allWithClassName t name recursive)
  /\ (forall r, r ∈ allWithTag t name recursive ->
        exists c, deref t r = Some c /\ HasTag name c)
  /\ (forall r, r ∈ allWithClassName t name recursive ->
        exists c, deref t r = Some c /\ HasClass c name = true).
Proof.
  split; [|split; [|split]].
  - apply StronglySorted_docBefore_NoDup. destruct recursive.
    + rewrite allWithTag_preorder. apply StronglySorted_List_filter.
      pose proof (preorder_sorted t) as H. rewrite preorder_unfold in H |- *.
      now apply StronglySorted_cons in H.
    + rewrite allWithTag_shallow. apply StronglySorted_List_filter.
      apply children_refs_sorted.
  - apply StronglySorted_docBefore_NoDup. destruct recursive.
    + rewrite allWithClassName_preorder. apply StronglySorted_List_filter.
      apply preorder_sorted.
    + rewrite allWithClassName_unfold. simpl.
      destruct (HasClass t name); repeat constructor.
  - intros r Hr. apply elem_of_allWithTag in Hr as (c & (_ & Hc & _) & Htag).
    now exists c.
  - intros r Hr.
    apply elem_of_allWithClassName in Hr as (c & (Hc & _) & Hcls).
    now exists c.
Qed.

Lemma listings_distinct_and_valid_witness :
  exists c, deref sampleDiv [1] = Some c /\ HasClass c "c" = true.
Proof.
  destruct (listings_distinct_and_valid sampleDiv "c" true)
    as (_ & _ & _ & H).
  apply H. vm_compute. apply list_elem_of_In. now left.
Defined.

(** ** The empty id *)

(** X12: [FirstWithId] with the empty id returns the first element child
    whose [id] is missing or empty. *)
Theorem FirstWithId_empty_id (t : html.Node) (r : ref) :
  FirstWithId t "" = Some r
  <-> exists i c,
        r = [i] /\ html.Children t !! i = Some c /\ IsElement c
        /\ (NoEntry (html.Attr c) "id" \/ FirstEntry (html.Attr c) "id" "")
        /\ forall j b, j < i -> html.Children t !! j = Some b ->
             ~ (IsElement b
                /\ (NoEntry (html.Attr b) "id"
                    \/ FirstEntry (html.Attr b) "id" "")).
Proof.
  assert (Hid : forall c,
            idMatch "" c = true
            <-> IsElement c
                /\ (NoEntry (html.Attr c) "id"
                    \/ FirstEntry (html.Attr c) "id" "")).
  { intros c. rewrite idMatch_true. unfold HasId, IsElement, Attr.
    destruct (FirstEntry_or_NoEntry (html.Attr c) "id") as [[v Hv]|Hno].
    - rewrite (attrLoop_FirstEntry _ _ _ Hv). split.
      + intros [Hel ->]. auto.
      + intros [Hel [Hno|Hv']]; [now apply FirstEntry_NoEntry in Hv|].
        apply attrLoop_FirstEntry in Hv, Hv'. split; congruence.
    - rewrite (attrLoop_NoEntry _ _ Hno). tauto. }
  unfold FirstWithId. rewrite firstWithId_unfold. simpl.
  destruct (scan (idMatch "") (html.Children t) 0) as [k|] eqn:Escan.
  - apply scan_Some in Escan as (j & c & -> & Hj & Hc & Hmin). simpl. split.
    + intros [= <-]. exists j, c. apply Hid in Hc as [Hel Hattr].
      repeat split; try assumption.
      intros j' b Hlt Hb Hmatch. apply Hid in Hmatch.
      specialize (Hmin j' b Hlt Hb). congruence.
    + intros (i & c' & -> & Hi & Hel & Hattr & Hmin').
      f_equal. f_equal.
      destruct (Nat.lt_trichotomy i j) as [Hlt|[->|Hgt]]; [|reflexivity|].
      * specialize (Hmin i c' Hlt Hi).
        rewrite (proj2 (Hid c') (conj Hel Hattr)) in Hmin. discriminate.
      * exfalso. apply (Hmin' j c Hgt Hj). now apply Hid.
  - apply scan_None in Escan. rewrite Forall_lookup in Escan. split.
    + discriminate.
    + intros (i & c & _ & Hi & Hel & Hattr & _).
      specialize (Escan i c Hi).
      rewrite (proj2 (Hid c) (conj Hel Hattr)) in Escan. discriminate.
Qed.

(** ** The pointer view once more *)

Lemma deref_size r : forall t t', deref t r = Some t' -> size t' <= size t.
Proof.
  induction r as [|i r IH]; intros t t' H; simpl in H.
  - injection H as <-. lia.
  - destruct (html.Children t !! i) as [c|] eqn:Hi; [|discriminate].
    apply IH in H. rewrite (size_unfold t).
    apply list_elem_of_lookup_2, elem_size_le_sum in Hi. lia.
Qed.

Section PointerView.

Variable h : gmap Ptr.ptr Ptr.cell.

Lemma chain_nthSibling c ts :
  Ptr.chain h c ts ->
  forall j cj, Ptr.nthSibling h c j = Some cj ->
    exists tj, ts !! j = Some tj /\ Ptr.repr h cj tj.
Proof.
  induction 1 as [|a n t ts Ha Hty Hd Hat Hkids _ Hnext IH]; intros j cj Hj.
  - destruct j; discriminate.
  - destruct j as [|j]; simpl in Hj.
    + injection Hj as <-. exists t. split; [reflexivity|]. exists n. auto.
    + rewrite Ha in Hj. now apply IH.
Qed.

Lemma leadsTo_repr_aux r : forall a t q,
  Ptr.repr h a t -> Ptr.locate h a r = Some q ->
  exists t', deref t r = Some t' /\ Ptr.repr h q t'.
Proof.
  induction r as [|i r IH]; intros a t q Hrepr Hq; simpl in Hq.
  - injection Hq as <-. now exists t.
  - destruct (h !! a) as [n|] eqn:Hn; [|discriminate].
    destruct (Ptr.nthSibling h (Ptr.FirstChild n) i) as [c|] eqn:Hc;
      [|discriminate].
    destruct (repr_cell h a t n Hrepr Hn) as (_ & _ & _ & Hkids).
    destruct (chain_nthSibling _ _ Hkids i c Hc) as (ti & Hi & Hti).
    destruct (IH c ti q Hti Hq) as (t' & Ht' & Hq').
    exists t'. split; [simpl; now rewrite Hi | assumption].
Qed.

Lemma isText_cell a t n :
  Ptr.repr h a t -> h !! a = Some n -> Ptr.isText n = isText t.
Proof.
  intros Hr Hn. destruct (repr_cell h a t n Hr Hn) as (Hty & _).
  unfold Ptr.isText, isText. now rewrite Hty.
Qed.

Lemma textLoop_refines c ts :
  Ptr.chain h c ts ->
  forall fuel, length ts <= fuel ->
    Ptr.textLoop h fuel c = Ptr.Done (textLoop ts).
Proof.
  induction 1 as [|a n t ts Ha Hty Hd Hat Hkids _ Hnext IH]; intros fuel Hfuel.
  - now destruct fuel.
  - destruct fuel as [|fuel]; simpl in Hfuel; [lia|].
    simpl. rewrite Ha. simpl.
    unfold Ptr.isText, isText. rewrite Hty, Hd.
    destruct (html.NodeType_eqb (html.Type_ t) TextNode); [reflexivity|].
    apply IH. lia.
Qed.

Lemma option_Forall2_wrapFirst a res found :
  option_Forall2 (Ptr.leadsTo h a) res found ->
  Ptr.wrapsResult h a (Ptr.Method.wrapFirst res) found.
Proof. destruct 1 as [q r Hq|]; simpl; [now exists q | exact I]. Qed.

Lemma elem_of_newNodes w l :
  w ∈ Ptr.newNodes (map Some l)
  <-> exists q, w = Ptr.newNode (Some q) /\ q ∈ l.
Proof.
  induction l as [|q l IH]; simpl.
  - split; [intros H; inversion H | intros (q & _ & H); inversion H].
  - rewrite elem_of_cons, IH. split.
    + intros [->|(q' & -> & Hq')]; [exists q | exists q'];
        (split; [reflexivity|]); [now left | now right].
    + intros (q' & -> & [->|Hq']%elem_of_cons); [now left|].
      right. now exists q'.
Qed.

Lemma Forall2_elem_of_l {A B} (R : A -> B -> Prop) l k x :
  Forall2 R l k -> x ∈ l -> exists y, y ∈ k /\ R x y.
Proof.
  induction 1 as [|x' y l k Hxy _ IH]; intros Hx; [inversion Hx|].
  apply elem_of_cons in Hx as [->|Hx].
  - exists y. split; [now left | assumption].
  - destruct (IH Hx) as (y' & Hy' & Hr). exists y'. split; [now right|].
    assumption.
Qed.

End PointerView.

(** X13: On a store that holds a finite tree below the node at [a], with
    fuel for its nodes, each traversal and each dispatcher of the
    pointer view returns what the tree view returns: the node found is
    the one the reference of the tree view leads to, the nodes listed
    are those the references listed lead to, in the same order, and
    [nil] stands where the tree view has none. *)
Theorem pointer_view_refines (h : gmap Ptr.ptr Ptr.cell) (a : Ptr.ptr)
  (t : html.Node) (fuel : nat) :
  Ptr.repr h a t -> size t <= fuel ->
  forall (name : string) (recursive : bool) (s : Selector),
    (exists res,
       Ptr.firstWithId h fuel (Some a) name recursive = Ptr.Done res
       /\ option_Forall2 (Ptr.leadsTo h a) res (firstWithId t name recursive))
    /\ (exists res,
          Ptr.firstWithClassName h fuel (Some a) name recursive = Ptr.Done res
          /\ option_Forall2 (Ptr.leadsTo h a) res
               (firstWithClassName t name recursive))
    /\ (exists res,
          Ptr.firstWithTag h fuel (Some a) name recursive = Ptr.Done res
          /\ option_Forall2 (Ptr.leadsTo h a) res
               (firstWithTag t name recursive))
    /\ (exists res,
          Ptr.allWithClassName h fuel (Some a) name recursive = Ptr.Done res
          /\ Forall2 (Ptr.leadsTo h a) res (allWithClassName t name recursive))
    /\ (exists res,
          Ptr.allWithTag h fuel (Some a) name recursive = Ptr.Done res
          /\ Forall2 (Ptr.leadsTo h a) res (allWithTag t name recursive))
    /\ (exists res,
          Ptr.SelectFirst h fuel (Some a) s = Ptr.Done res
          /\ option_Forall2 (Ptr.leadsTo h a) res (SelectFirst t s))
    /\ (exists res,
          Ptr.SelectAll h fuel (Some a) s = Ptr.Done res
          /\ option_Forall2 (Forall2 (option_Forall2 (Ptr.leadsTo h a)))
               res (SelectAll t s)).
Proof.
  intros Hrepr Hfuel name recursive s. repeat split.
  - now apply firstWithId_refines.
  - now apply firstWithClassName_refines.
  - now apply firstWithTag_refines.
  - now apply allWithClassName_refines.
  - now apply allWithTag_refines.
  - now apply SelectFirst_refines.
  - now apply SelectAll_refines.
Qed.

Lemma pointer_view_refines_witness :
  exists res,
    Ptr.allWithTag Ptr.sampleStore 3 (Some 0) "a" true = Ptr.Done res
    /\ Forall2 (Ptr.leadsTo Ptr.sampleStore 0) res
         (allWithTag sampleStoreTree "a" true).
Proof.
  destruct (pointer_view_refines Ptr.sampleStore 0 sampleStoreTree 3
              sampleStore_repr ltac:(vm_compute; lia)
              "a" true (mkSelector "" "" "" true))
    as (_ & _ & _ & _ & H & _).
  exact H.
Defined.

(** A node that a reference leads to is itself the top of a finite
    tree held by the store, the subtree the reference points to in the
    tree view; so whatever a traversal returns can be queried in
    turn. *)
Theorem leadsTo_repr (h : gmap Ptr.ptr Ptr.cell) (a q : Ptr.ptr)
  (t : html.Node) (r : ref) :
  Ptr.repr h a t -> Ptr.leadsTo h a q r ->
  exists t', deref t r = Some t' /\ Ptr.repr h q t' /\ size t' <= size t.
Proof.
  intros Hrepr Hq.
  destruct (leadsTo_repr_aux h r a t q Hrepr Hq) as (t' & Ht' & Hq').
  exists t'. repeat split; [assumption ..|]. now apply deref_size with r.
Qed.

Lemma leadsTo_repr_witness :
  exists t', deref sampleStoreTree [1] = Some t'
             /\ Ptr.repr Ptr.sampleStore 2 t'
             /\ size t' <= size sampleStoreTree.
Proof.
  apply (leadsTo_repr Ptr.sampleStore 0 2 sampleStoreTree [1]
           sampleStore_repr).
  reflexivity.
Defined.

(** X14: A node that [SelectFirst] returns, or that [SelectAll] lists,
    on a finite tree held by the store is the node the tree view
    returns or lists, and it is itself the top of a finite tree in the
    store, the subtree found, no larger than the whole; so both
    dispatchers, called on it with the same fuel, return again what the
    tree view gives on that subtree. *)
Theorem results_can_be_queried (h : gmap Ptr.ptr Ptr.cell) (a : Ptr.ptr)
  (t : html.Node) (fuel : nat) :
  Ptr.repr h a t -> size t <= fuel ->
  forall (s : Selector) (q : Ptr.ptr),
    (Ptr.SelectFirst h fuel (Some a) s = Ptr.Done (Some q)
     \/ exists l, Ptr.SelectAll h fuel (Some a) s = Ptr.Done (Some l)
                  /\ Some q ∈ l) ->
    exists r t',
      (SelectFirst t s = Some r
       \/ exists l', SelectAll t s = Some l' /\ Some r ∈ l')
      /\ deref t r = Some t' /\ Ptr.leadsTo h a q r
      /\ Ptr.repr h q t' /\ size t' <= size t
      /\ forall s',
           (exists res,
              Ptr.SelectFirst h fuel (Some q) s' = Ptr.Done res
              /\ option_Forall2 (Ptr.leadsTo h q) res (SelectFirst t' s'))
           /\ (exists res,
                 Ptr.SelectAll h fuel (Some q) s' = Ptr.Done res
                 /\ option_Forall2
                      (Forall2 (option_Forall2 (Ptr.leadsTo h q)))
                      res (SelectAll t' s')).
Proof.
  intros Hrepr Hfuel s q Hres.
  assert (Hlead : exists r,
            Ptr.leadsTo h a q r
            /\ (SelectFirst t s = Some r
                \/ exists l', SelectAll t s = Some l' /\ Some r ∈ l')).
  { destruct Hres as [Hf|(l & Hl & Hin)].
    - destruct (SelectFirst_refines h t a fuel s Hrepr Hfuel)
        as (res & Hres & Hrel).
      rewrite Hf in Hres. injection Hres as <-.
      destruct (SelectFirst t s) as [r|] eqn:E; inversion Hrel; subst.
      exists r. split; [assumption | now left].
    - destruct (SelectAll_refines h t a fuel s Hrepr Hfuel)
        as (res & Hres & Hrel).
      rewrite Hl in Hres. injection Hres as <-.
      destruct (SelectAll t s) as [l'|] eqn:E;
        inversion Hrel as [? ? HF|]; subst.
      destruct (Forall2_elem_of_l _ _ _ (Some q) HF Hin) as (y & Hy & Hr).
      inversion Hr; subst.
      eexists. split; [eassumption|]. right. now exists l'. }
  destruct Hlead as (r & Hq & Htree).
  destruct (leadsTo_repr_aux h r a t q Hrepr Hq) as (t' & Ht' & Hq').
  assert (Hsize : size t' <= size t) by now apply deref_size with r.
  exists r, t'. repeat split; try assumption.
  - apply SelectFirst_refines; [assumption | lia].
  - apply SelectAll_refines; [assumption | lia].
Qed.

Lemma results_can_be_queried_witness :
  exists r t',
    (SelectFirst sampleStoreTree (mkSelector "" "" "a" false) = Some r
     \/ exists l', SelectAll sampleStoreTree (mkSelector "" "" "a" false)
                   = Some l' /\ Some r ∈ l')
    /\ deref sampleStoreTree r = Some t'
    /\ Ptr.leadsTo Ptr.sampleStore 0 2 r
    /\ Ptr.repr Ptr.sampleStore 2 t' /\ size t' <= size sampleStoreTree
    /\ forall s',
         (exists res,
            Ptr.SelectFirst Ptr.sampleStore 3 (Some 2) s' = Ptr.Done res
            /\ option_Forall2 (Ptr.leadsTo Ptr.sampleStore 2) res
                 (SelectFirst t' s'))
         /\ (exists res,
               Ptr.SelectAll Ptr.sampleStore 3 (Some 2) s' = Ptr.Done res
               /\ option_Forall2
                    (Forall2 (option_Forall2 (Ptr.leadsTo Ptr.sampleStore 2)))
                    res (SelectAll t' s')).
Proof.
  apply (results_can_be_queried Ptr.sampleStore 0 sampleStoreTree 3
           sampleStore_repr ltac:(vm_compute; lia)
           (mkSelector "" "" "a" false) 2).
  left. reflexivity.
Defined.

(** X15: On a node of a finite tree held by the store, [Attr], [HasClass]
    and [TextContent] of the pointer view give what the tree view
    gives; the loop of [TextContent] needs fuel for the children
    only. *)
Theorem utilities_refine (h : gmap Ptr.ptr Ptr.cell) (a : Ptr.ptr)
  (t : html.Node) :
  Ptr.repr h a t ->
  (forall attr, Ptr.GetAttr h (Some a) attr = Ptr.Done (Attr t attr))
  /\ (forall className,
        Ptr.HasClass h (Some a) className = Ptr.Done (HasClass t className))
  /\ (forall fuel, length (html.Children t) <= fuel ->
        Ptr.TextContent h fuel (Some a) = Ptr.Done (TextContent t)).
Proof.
  intros Hrepr. pose proof Hrepr as (n & Hn & Hty & Hd & Hat & Hkids).
  unfold Ptr.GetAttr, Ptr.HasClass, Ptr.TextContent, Attr, HasClass,
    TextContent.
  rewrite (load_Some h a n Hn). simpl. rewrite Hat. repeat split.
  intros fuel Hfuel. rewrite (isText_cell h a t n Hrepr Hn), Hd.
  destruct (isText t); [reflexivity|]. now apply textLoop_refines.
Qed.

Lemma utilities_refine_witness :
  Ptr.GetAttr Ptr.sampleStore (Some 0) "id" = Ptr.Done ""
  /\ Ptr.TextContent Ptr.sampleStore 2 (Some 0) = Ptr.Done "".
Proof.
  destruct (utilities_refine Ptr.sampleStore 0 sampleStoreTree
              sampleStore_repr) as (H1 & _ & H3).
  split; [apply (H1 "id") | apply (H3 2)]. vm_compute. lia.
Defined.

(** ** The methods of [Node] *)

Ltac first_method lemma :=
  match goal with
  | Hrepr : Ptr.repr ?h ?a ?t, Hfuel : size ?t <= ?fuel |- _ =>
      let res := fresh "res" in
      let Hres := fresh "Hres" in
      let Hrel := fresh "Hrel" in
      simpl;
      match goal with
      | |- context [Ptr.firstWithId h fuel (Some a) ?x ?r] =>
          destruct (lemma h t a fuel x r Hrepr Hfuel) as (res & Hres & Hrel)
      | |- context [Ptr.firstWithClassName h fuel (Some a) ?x ?r] =>
          destruct (lemma h t a fuel x r Hrepr Hfuel) as (res & Hres & Hrel)
      | |- context [Ptr.firstWithTag h fuel (Some a) ?x ?r] =>
          destruct (lemma h t a fuel x r Hrepr Hfuel) as (res & Hres & Hrel)
      end;
      rewrite Hres; simpl; eexists; split; [reflexivity|];
      now apply option_Forall2_wrapFirst
  end.

(** X16: Called on a wrapper around a node of a finite tree, with fuel for
    its nodes, each first-match method returns [nil] when the tree view
    finds nothing, and else a wrapper whose backing pointer is not
    [nil]: it is the node the tree view finds. *)
Theorem first_methods_wrap_result (h : gmap Ptr.ptr Ptr.cell) (a : Ptr.ptr)
  (t : html.Node) (fuel : nat) :
  Ptr.repr h a t -> size t <= fuel ->
  forall (name : string) (s : Selector),
    (exists res,
       Ptr.Method.FirstWithId h fuel (Some (Ptr.newNode (Some a))) name
       = Ptr.Done res
       /\ Ptr.wrapsResult h a res (FirstWithId t name))
    /\ (exists res,
          Ptr.Method.FirstWithIdR h fuel (Some (Ptr.newNode (Some a))) name
          = Ptr.Done res
          /\ Ptr.wrapsResult h a res (FirstWithIdR t name))
    /\ (exists res,
          Ptr.Method.FirstWithClassName h fuel
            (Some (Ptr.newNode (Some a))) name = Ptr.Done res
          /\ Ptr.wrapsResult h a res (FirstWithClassName t name))
    /\ (exists res,
          Ptr.Method.FirstWithClassNameR h fuel
            (Some (Ptr.newNode (Some a))) name = Ptr.Done res
          /\ Ptr.wrapsResult h a res (FirstWithClassNameR t name))
    /\ (exists res,
          Ptr.Method.FirstWithTag h fuel (Some (Ptr.newNode (Some a))) name
          = Ptr.Done res
          /\ Ptr.wrapsResult h a res (FirstWithTag t name))
    /\ (exists res,
          Ptr.Method.FirstWithTagR h fuel (Some (Ptr.newNode (Some a))) name
          = Ptr.Done res
          /\ Ptr.wrapsResult h a res (FirstWithTagR t name))
    /\ (exists res,
          Ptr.Method.SelectFirst h fuel (Some (Ptr.newNode (Some a))) s
          = Ptr.Done res
          /\ Ptr.wrapsResult h a res (SelectFirst t s)).
Proof.
  intros Hrepr Hfuel name s.
  unfold Ptr.Method.FirstWithId, Ptr.Method.FirstWithIdR,
    Ptr.Method.FirstWithClassName, Ptr.Method.FirstWithClassNameR,
    Ptr.Method.FirstWithTag, Ptr.Method.FirstWithTagR,
    Ptr.Method.SelectFirst,
    Ptr.FirstWithId, Ptr.FirstWithIdR, Ptr.FirstWithClassName,
    Ptr.FirstWithClassNameR, Ptr.FirstWithTag, Ptr.FirstWithTagR,
    FirstWithId, FirstWithIdR, FirstWithClassName, FirstWithClassNameR,
    FirstWithTag, FirstWithTagR.
  split; [first_method firstWithId_refines|].
  split; [first_method firstWithId_refines|].
  split; [first_method firstWithClassName_refines|].
  split; [first_method firstWithClassName_refines|].
  split; [first_method firstWithTag_refines|].
  split; [first_method firstWithTag_refines|].
  simpl.
  destruct (SelectFirst_refines h t a fuel s Hrepr Hfuel)
    as (res & -> & Hrel).
  simpl. eexists. split; [reflexivity|].
  now apply option_Forall2_wrapFirst.
Qed.

Lemma first_methods_wrap_result_witness :
  exists res,
    Ptr.Method.FirstWithTag Ptr.sampleStore 3 (Some (Ptr.newNode (Some 0))) "a"
    = Ptr.Done res
    /\ Ptr.wrapsResult Ptr.sampleStore 0 res (FirstWithTag sampleStoreTree "a").
Proof.
  destruct (first_methods_wrap_result Ptr.sampleStore 0 sampleStoreTree 3
              sampleStore_repr ltac:(vm_compute; lia)
              "a" (mkSelector "" "" "" true))
    as (_ & _ & _ & _ & H & _).
  exact H.
Defined.

(** X17: With an [Id] that is not empty the method [SelectAll] never
    hands out a node that can be used: on a match the slice is empty,
    and on a miss it holds one wrapper whose backing pointer is [nil].
    On such a wrapper [Attr], [HasClass], [String], [TextContent] and
    the by-id, by-class and by-tag methods panic; [SelectFirst] and
    [SelectAll] panic for every selector with a field that is not
    empty, and return [nil] for the selector with all fields empty. *)
Theorem Method_SelectAll_by_id (h : gmap Ptr.ptr Ptr.cell) (a : Ptr.ptr)
  (t : html.Node) (fuel : nat) (s : Selector) :
  Ptr.repr h a t -> size t <= fuel -> Id s <> "" ->
  Ptr.Method.SelectAll h fuel (Some (Ptr.newNode (Some a))) s
  = Ptr.Done
      (Some (match firstWithId t (Id s) (Recursive s) with
             | None => [Ptr.newNode None]
             | Some _ => []
             end))
  /\ (forall attr name fuel' s',
        Ptr.Method.Attr h (Some (Ptr.newNode None)) attr = Ptr.Panic
        /\ Ptr.Method.HasClass h (Some (Ptr.newNode None)) name = Ptr.Panic
        /\ Ptr.Method.String h (Some (Ptr.newNode None)) = Ptr.Panic
        /\ Ptr.Method.TextContent h fuel' (Some (Ptr.newNode None))
           = Ptr.Panic
        /\ Ptr.Method.FirstWithId h (S fuel') (Some (Ptr.newNode None)) name
           = Ptr.Panic
        /\ Ptr.Method.FirstWithClassName h (S fuel')
             (Some (Ptr.newNode None)) name = Ptr.Panic
        /\ Ptr.Method.FirstWithTag h (S fuel') (Some (Ptr.newNode None)) name
           = Ptr.Panic
        /\ Ptr.Method.AllWithClassName h (S fuel')
             (Some (Ptr.newNode None)) name = Ptr.Panic
        /\ Ptr.Method.AllWithTag h (S fuel') (Some (Ptr.newNode None)) name
           = Ptr.Panic
        /\ (Id s' <> "" \/ ClassName s' <> "" \/ Tag s' <> "" ->
            Ptr.Method.SelectFirst h (S fuel') (Some (Ptr.newNode None)) s'
            = Ptr.Panic
            /\ Ptr.Method.SelectAll h (S fuel') (Some (Ptr.newNode None)) s'
               = Ptr.Panic)
        /\ (Id s' = "" -> ClassName s' = "" -> Tag s' = "" ->
            Ptr.Method.SelectFirst h fuel' (Some (Ptr.newNode None)) s'
            = Ptr.Done None
            /\ Ptr.Method.SelectAll h fuel' (Some (Ptr.newNode None)) s'
               = Ptr.Done None)).
Proof.
  intros Hrepr Hfuel Hid. apply len_pos in Hid. split.
  - unfold Ptr.Method.SelectAll, Ptr.SelectAll. simpl. rewrite Hid.
    destruct (firstWithId_refines h t a fuel (Id s) (Recursive s) Hrepr Hfuel)
      as (res & -> & Hrel).
    simpl. now destruct Hrel.
  - intros attr name fuel' s'.
    do 9 (split; [reflexivity|]).
    unfold Ptr.Method.SelectFirst, Ptr.Method.SelectAll, Ptr.SelectFirst,
      Ptr.SelectAll.
    simpl. split.
    + intros Hfield.
      destruct (0 <? len (Id s'))%nat eqn:E1; [now split|].
      destruct (0 <? len (ClassName s'))%nat eqn:E2; [now split|].
      destruct (0 <? len (Tag s'))%nat eqn:E3; [now split|].
      destruct Hfield as [H|[H|H]]; apply len_pos in H; congruence.
    + intros -> -> ->. now split.
Qed.

Lemma Method_SelectAll_by_id_witness :
  Ptr.Method.SelectAll Ptr.sampleStore 3 (Some (Ptr.newNode (Some 0)))
    (mkSelector "y" "" "" true)
  = Ptr.Done (Some [Ptr.newNode None])
  /\ Ptr.Method.SelectFirst Ptr.sampleStore 1 (Some (Ptr.newNode None))
       (mkSelector "" "c" "" false) = Ptr.Panic
  /\ Ptr.Method.SelectFirst Ptr.sampleStore 0 (Some (Ptr.newNode None))
       (mkSelector "" "" "" false) = Ptr.Done None.
Proof.
  destruct (Method_SelectAll_by_id Ptr.sampleStore 0 sampleStoreTree 3
              (mkSelector "y" "" "" true) sampleStore_repr
              ltac:(vm_compute; lia) ltac:(discriminate)) as [H1 H2].
  split; [exact H1|]. split.
  - destruct (H2 "" "" 0 (mkSelector "" "c" "" false))
      as (_ & _ & _ & _ & _ & _ & _ & _ & _ & H & _).
    apply H. right. left. discriminate.
  - destruct (H2 "" "" 0 (mkSelector "" "" "" false))
      as (_ & _ & _ & _ & _ & _ & _ & _ & _ & _ & H).
    now apply H.
Defined.

Lemma shopStore_repr : Ptr.repr Ptr.shopStore 0 shopTree.
Proof.
  exists (Ptr.mkCell ElementNode "div" [] (Some 1) None).
  repeat split. simpl.
  apply Ptr.chain_cons
    with (n := Ptr.mkCell ElementNode "div"
                 [mkAttribute "" "class" "product"] (Some 2) None);
    try reflexivity; [|constructor].
  apply Ptr.chain_cons
    with (n := Ptr.mkCell ElementNode "a" [mkAttribute "" "href" "/p"]
                 (Some 3) None);
    try reflexivity; [|constructor].
  apply Ptr.chain_cons with (n := Ptr.mkCell TextNode "Go" [] None None);
    try reflexivity; constructor.
Qed.

(** X18: The pattern of the README: list the nodes with a class below a
    node, search each of them for a tag, and read the text and an
    attribute of what is found.  On a finite tree, with fuel for its
    nodes, every step returns.  Each product listed wraps the node of a
    reference that the tree view lists, a node with the class; the link
    is [nil] or wraps the node that the tree view finds below that
    product; and when the tree view finds an element there, the text
    and the attribute read from the link are those of that element. *)
Theorem list_then_search_then_read (h : gmap Ptr.ptr Ptr.cell) (a : Ptr.ptr)
  (t : html.Node) (fuel : nat) :
  Ptr.repr h a t -> size t <= fuel ->
  forall className tagName attr,
  exists products,
    Ptr.Method.AllWithClassNameR h fuel (Some (Ptr.newNode (Some a))) className
    = Ptr.Done products
    /\ forall product, product ∈ products ->
       exists q r tq link,
         Ptr.backing product = Some q
         /\ Ptr.leadsTo h a q r
         /\ r ∈ AllWithClassNameR t className
         /\ deref t r = Some tq
         /\ HasClass tq className = true
         /\ Ptr.Method.FirstWithTag h fuel (Some product) tagName
            = Ptr.Done link
         /\ Ptr.wrapsResult h q link (FirstWithTag tq tagName)
         /\ (forall r', FirstWithTag tq tagName = Some r' ->
             exists el,
               deref tq r' = Some el
               /\ HasTag tagName el
               /\ Ptr.Method.TextContent h fuel link
                  = Ptr.Done (TextContent el)
               /\ Ptr.Method.Attr h link attr = Ptr.Done (Attr el attr)).
Proof.
  intros Hrepr Hfuel className tagName attr.
  unfold Ptr.Method.AllWithClassNameR, Ptr.AllWithClassNameR,
    AllWithClassNameR.
  simpl.
  destruct (allWithClassName_refines h t a fuel className true Hrepr Hfuel)
    as (res & -> & Hrel).
  simpl. eexists. split; [reflexivity|].
  intros product (q & -> & Hq)%elem_of_newNodes.
  destruct (Forall2_elem_of_l _ _ _ q Hrel Hq) as (r & Hin & Hr).
  destruct (leadsTo_repr_aux h r a t q Hrepr Hr) as (tq & Htq & Hrq).
  assert (Hfq : size tq <= fuel).
  { pose proof (deref_size r t tq Htq). lia. }
  assert (Hcls : HasClass tq className = true).
  { apply elem_of_allWithClassName in Hin as (c & [Hc _] & Hcls).
    congruence. }
  unfold Ptr.Method.FirstWithTag, Ptr.FirstWithTag, FirstWithTag. simpl.
  destruct (firstWithTag_refines h tq q fuel tagName false Hrq Hfq)
    as (res' & -> & Hrel').
  simpl. exists q, r, tq, (Ptr.Method.wrapFirst res').
  do 6 (split; [first [reflexivity | assumption]|]).
  split; [now apply option_Forall2_wrapFirst|].
  intros r' Htree. rewrite Htree in Hrel'.
  inversion Hrel' as [q' ? Hq' | ]; subst.
  destruct (leadsTo_repr_aux h r' q tq q' Hrq Hq') as (el & Hel & Hrel'').
  pose proof (fun t r => firstWithTag_unfold t tagName r) as Hunf.
  destruct (first_sound _ _ Hunf tq false r' Htree)
    as (c & (_ & Hc & _) & Htag).
  assert (c = el) as -> by congruence.
  exists el. split; [assumption|]. split; [now apply tagMatch_true|].
  pose proof Hrel'' as (n & Hn & Hty & Hd & Hat & Hkids).
  unfold Ptr.Method.TextContent, Ptr.Method.Attr, Ptr.TextContent,
    Ptr.GetAttr, TextContent, Attr.
  simpl. rewrite Hn. simpl. rewrite Hat. split; [|reflexivity].
  rewrite (isText_cell h q' el n Hrel'' Hn), Hd.
  destruct (isText el); [reflexivity|].
  apply textLoop_refines; [assumption|].
  pose proof (length_le_sum_size (html.Children el)).
  pose proof (deref_size r' tq el Hel). rewrite (size_unfold el) in *. lia.
Qed.

(** On the shop sample the three steps are all taken: the product at
    [1] is listed, the link at [2] is found, and its text and its
    [href] are read. *)
Lemma list_then_search_then_read_witness :
  Ptr.Method.AllWithClassNameR Ptr.shopStore 4
    (Some (Ptr.newNode (Some 0))) "product"
  = Ptr.Done [Ptr.newNode (Some 1)]
  /\ Ptr.Method.FirstWithTag Ptr.shopStore 4
       (Some (Ptr.newNode (Some 1))) "a"
     = Ptr.Done (Some (Ptr.newNode (Some 2)))
  /\ Ptr.Method.TextContent Ptr.shopStore 4 (Some (Ptr.newNode (Some 2)))
     = Ptr.Done "Go"
  /\ Ptr.Method.Attr Ptr.shopStore (Some (Ptr.newNode (Some 2))) "href"
     = Ptr.Done "/p".
Proof.
  destruct (list_then_search_then_read Ptr.shopStore 0 shopTree 4
              shopStore_repr ltac:(vm_compute; lia) "product" "a" "href")
    as (products & Hproducts & Hall).
  assert (Hp : products = [Ptr.newNode (Some 1)]).
  { vm_compute in Hproducts. now injection Hproducts as <-. }
  subst products.
  destruct (Hall (Ptr.newNode (Some 1)) ltac:(now left))
    as (q & r & tq & link & Hb & Hq & Hin & Hd & Hcls & Hlink & Hw & Hread).
  assert (Hr : r = [0]).
  { vm_compute in Hin. now apply list_elem_of_singleton in Hin. }
  subst r. vm_compute in Hd. injection Hd as <-.
  assert (Hl : link = Some (Ptr.newNode (Some 2))).
  { vm_compute in Hlink. now injection Hlink as <-. }
  subst link.
  destruct (Hread [0] eq_refl) as (el & Hel & Htag & Htext & Hattr).
  vm_compute in Hel. injection Hel as <-.
  split; [exact Hproducts|]. split; [exact Hlink|].
  split; [exact Htext | exact Hattr].
Defined.
